(** * Euler-Bernoulli beam fields and Euler column buckling

    A shallow embedding of [BeamTheory.euler_bernoulli] (with its eight
    closed-form sub-solvers) from [src/structural_analysis/beam_theory.py]
    and of [ColumnTheory.euler_buckling] from
    [src/structural_analysis/column_theory.py].

    Modelling choices:
    - Python floats are modelled as idealised real numbers [R]; rounding
      and NaN are not modelled.
    - numpy arrays are lists; element-wise numpy expressions and the
      per-index [for] loops of the sub-solvers become [map] over the
      station list.
    - [raise ValueError(msg)] is [Raise (ValueError msg)] in a small
      error monad; the [assert load_position is not None] of the
      dispatcher is [Raise AssertionError].
    - [np.linspace] and [np.max] are modelled with the behaviour they have
      on the arguments the code passes (negative sample counts and empty
      reductions raise [ValueError]). *)

From Stdlib Require Import Reals Lra Lia ZArith List String.
Import ListNotations.

Open Scope R_scope.

(** ** Errors and the error monad *)

Inductive exn : Type :=
| ValueError (msg : string)
| AssertionError.

Inductive result (A : Type) : Type :=
| Ok (a : A)
| Raise (e : exn).

Arguments Ok {A} a.
Arguments Raise {A} e.

Definition bind {A B : Type} (m : result A) (k : A -> result B) : result B :=
  match m with
  | Ok a => k a
  | Raise e => Raise e
  end.

Notation "'let*' p ':=' m 'in' k" := (bind m (fun p => k))
  (at level 200, p pattern, m at level 100, k at level 200).

(** Boolean views of the float comparisons used by the code. *)

Definition Rleb (a b : R) : bool := if Rle_dec a b then true else false.
Definition Rltb (a b : R) : bool := if Rlt_dec a b then true else false.
Definition Reqb (a b : R) : bool := if Req_dec_T a b then true else false.

(** ** numpy helpers *)

Module Np.

(** numpy's own messages (the sample count is elided from the first). *)
Definition linspace_negative_msg : string :=
  "Number of samples must be non-negative.".
Definition max_empty_msg : string :=
  "zero-size array to reduction operation maximum which has no identity".

(** [np.linspace(start, stop, num)] with the default [endpoint=True]:
    [num < 0] raises; otherwise [div = num - 1]; when [div > 0] the samples
    are [i * step + start] with [step = (stop - start) / div] and the last
    one is overwritten by [stop]; when [div = 0] (so [num] is 0 or 1) the
    samples are [arange(num) * (stop - start) + start]. *)
Definition linspace (start stop : R) (num : Z) : result (list R) :=
  if Z.ltb num 0 then
    Raise (ValueError linspace_negative_msg)
  else
    let n := Z.to_nat num in
    let div := (n - 1)%nat in
    if Nat.ltb 0 div then
      let step := (stop - start) / INR div in
      Ok (map (fun i => INR i * step + start) (seq 0 div) ++ [stop])
    else
      Ok (map (fun i => INR i * (stop - start) + start) (seq 0 n)).

(** [np.zeros_like(x)]. *)
Definition zeros_like (x : list R) : list R := map (fun _ => 0) x.

(** [float(np.max(np.abs(arr)))]: a maximum reduction with no identity,
    so it raises on an empty array. *)
Definition max_abs (arr : list R) : result R :=
  match arr with
  | [] => Raise (ValueError max_empty_msg)
  | h :: t => Ok (fold_left (fun m y => Rmax m (Rabs y)) t (Rabs h))
  end.

End Np.

(** ** [BeamTheory] *)

Module Beam.

Inductive load_kind : Type := point | distributed | moment_load.

Inductive boundary : Type := simply_supported | cantilever | fixed_fixed.

(** The returned dictionary. *)
Record beam_result : Type := {
  x : list R;
  deflection : list R;
  moment : list R;
  shear : list R;
  max_deflection : R;
  max_moment : R
}.

Definition fields : Type := (list R * list R * list R)%type.

(** [_simply_supported_point_load]. *)
Definition simply_supported_point_load
    (x : list R) (L E moment_of_inertia P a : R) : fields :=
  let b := L - a in
  let deflection :=
    map (fun xi =>
           if Rle_dec xi a then
             (P * b * xi * (L ^ 2 - b ^ 2 - xi ^ 2)) /
               (6 * E * moment_of_inertia * L)
           else
             (P * a * (L - xi) * (2 * L * xi - xi ^ 2 - a ^ 2)) /
               (6 * E * moment_of_inertia * L)) x in
  let R1 := P * b / L in
  let R2 := P * a / L in
  let moment :=
    map (fun xi => if Rle_dec xi a then R1 * xi else R1 * xi - P * (xi - a)) x in
  let shear :=
    map (fun xi =>
           if Rlt_dec xi a then R1
           else if Rlt_dec a xi then - R2
           else 0) x in
  (deflection, moment, shear).

(** [_simply_supported_distributed_load] (vectorised numpy expressions). *)
Definition simply_supported_distributed_load
    (x : list R) (L E second_moment w : R) : fields :=
  (map (fun xi => (w * xi * (L ^ 3 - 2 * L * xi ^ 2 + xi ^ 3)) /
                    (24 * E * second_moment)) x,
   map (fun xi => (w * xi * (L - xi)) / 2) x,
   map (fun xi => (w * L / 2) - w * xi) x).

(** [_simply_supported_moment]; the final [shear.fill(0)]. *)
Definition simply_supported_moment
    (x : list R) (L E moment_of_inertia M a : R) : fields :=
  let M1 := M * (L - a) / L in
  let M2 := M * a / L in
  (map (fun xi =>
          if Rle_dec xi a then
            (M1 * xi * (L ^ 2 - xi ^ 2)) / (6 * E * moment_of_inertia * L)
          else
            (M2 * (L - xi) * (L ^ 2 - (L - xi) ^ 2)) /
              (6 * E * moment_of_inertia * L)) x,
   map (fun xi => if Rle_dec xi a then M1 * xi / L else M2 * (L - xi) / L) x,
   map (fun _ => 0) x).

(** [_cantilever_point_load]. *)
Definition cantilever_point_load
    (x : list R) (L E second_moment P a : R) : fields :=
  (map (fun xi =>
          if Rle_dec xi a then (P * xi ^ 2 * (3 * a - xi)) / (6 * E * second_moment)
          else (P * a ^ 2 * (3 * xi - a)) / (6 * E * second_moment)) x,
   map (fun xi => if Rle_dec xi a then - P * (a - xi) else 0) x,
   map (fun xi => if Rle_dec xi a then - P else 0) x).

(** [_cantilever_distributed_load]. *)
Definition cantilever_distributed_load
    (x : list R) (L E second_moment w : R) : fields :=
  (map (fun xi => (w * xi ^ 2 * (6 * L ^ 2 - 4 * L * xi + xi ^ 2)) /
                    (24 * E * second_moment)) x,
   map (fun xi => - w * (L - xi) ^ 2 / 2) x,
   map (fun xi => - w * (L - xi)) x).

(** [_cantilever_moment]; the final [shear.fill(0)]. *)
Definition cantilever_moment
    (x : list R) (L E second_moment M a : R) : fields :=
  (map (fun xi =>
          if Rle_dec xi a then (M * xi ^ 2) / (2 * E * second_moment)
          else (M * xi * (2 * a - xi)) / (2 * E * second_moment)) x,
   map (fun xi => if Rle_dec xi a then - M else 0) x,
   map (fun _ => 0) x).

(** [_fixed_fixed_point_load]. *)
Definition fixed_fixed_point_load
    (x : list R) (L E second_moment P a : R) : fields :=
  let b := L - a in
  let R1 := P * b ^ 2 * (3 * a + b) / L ^ 3 in
  let M1 := P * a * b ^ 2 / L ^ 2 in
  (map (fun xi =>
          if Rle_dec xi a then
            (R1 * xi ^ 3 / 6 - M1 * xi ^ 2 / 2) / (E * second_moment)
          else
            (R1 * xi ^ 3 / 6 - M1 * xi ^ 2 / 2 - P * (xi - a) ^ 3 / 6) /
              (E * second_moment)) x,
   map (fun xi => if Rle_dec xi a then R1 * xi - M1 else R1 * xi - M1 - P * (xi - a)) x,
   map (fun xi => if Rle_dec xi a then R1 else R1 - P) x).

(** [_fixed_fixed_distributed_load]. *)
Definition fixed_fixed_distributed_load
    (x : list R) (L E second_moment w : R) : fields :=
  (map (fun xi => (w * xi ^ 2 * (L - xi) ^ 2) / (24 * E * second_moment)) x,
   map (fun xi => (w * L ^ 2 / 12) - (w * xi * (L - xi)) / 2) x,
   map (fun xi => (w * L / 2) - w * xi) x).

Definition is_none {A : Type} (o : option A) : bool :=
  match o with None => true | Some _ => false end.

Definition load_kind_eqb (k1 k2 : load_kind) : bool :=
  match k1, k2 with
  | point, point | distributed, distributed | moment_load, moment_load => true
  | _, _ => false
  end.

(** The dispatch on [boundary_conditions] and [load_type]; a sub-solver
    that needs [load_position] goes through [assert load_position is not
    None].  The [(fixed_fixed, moment)] pair has no branch, so the three
    zero-initialised arrays are kept. *)
Definition dispatch (x : list R) (length E second_moment : R)
    (load_type : load_kind) (load_magnitude : R) (load_position : option R)
    (boundary_conditions : boundary) : result fields :=
  let zeros := Np.zeros_like x in
  let with_position (k : R -> fields) :=
    match load_position with
    | Some a => Ok (k a)
    | None => Raise AssertionError
    end in
  match boundary_conditions, load_type with
  | simply_supported, point =>
      with_position (simply_supported_point_load x length E second_moment load_magnitude)
  | simply_supported, distributed =>
      Ok (simply_supported_distributed_load x length E second_moment load_magnitude)
  | simply_supported, moment_load =>
      with_position (simply_supported_moment x length E second_moment load_magnitude)
  | cantilever, point =>
      with_position (cantilever_point_load x length E second_moment load_magnitude)
  | cantilever, distributed =>
      Ok (cantilever_distributed_load x length E second_moment load_magnitude)
  | cantilever, moment_load =>
      with_position (cantilever_moment x length E second_moment load_magnitude)
  | fixed_fixed, point =>
      with_position (fixed_fixed_point_load x length E second_moment load_magnitude)
  | fixed_fixed, distributed =>
      Ok (fixed_fixed_distributed_load x length E second_moment load_magnitude)
  | fixed_fixed, moment_load => Ok (zeros, zeros, zeros)
  end.

(** The part of [BeamTheory.euler_bernoulli] after the input validation:
    stations, zero-initialised arrays, dispatch, maxima, result dictionary. *)
Definition euler_bernoulli_body (length E second_moment : R)
    (load_type : load_kind) (load_magnitude : R) (load_position : option R)
    (boundary_conditions : boundary) (num_points : Z) : result beam_result :=
  let* x := Np.linspace 0 length num_points in
  let* (deflection, moment, shear) :=
    dispatch x length E second_moment load_type load_magnitude load_position
      boundary_conditions in
  let* max_deflection := Np.max_abs deflection in
  let* max_moment := Np.max_abs moment in
  Ok {| x := x; deflection := deflection; moment := moment; shear := shear;
        max_deflection := max_deflection; max_moment := max_moment |}.

(** [BeamTheory.euler_bernoulli]. *)
Definition euler_bernoulli (length E second_moment : R) (load_type : load_kind)
    (load_magnitude : R) (load_position : option R)
    (boundary_conditions : boundary) (num_points : Z) : result beam_result :=
  if (Rleb length 0 || Rleb E 0 || Rleb second_moment 0)%bool then
    Raise (ValueError "Length, E, and second_moment must be positive")
  else if Reqb load_magnitude 0 then
    Raise (ValueError "Load magnitude cannot be zero")
  else if (load_kind_eqb load_type point && is_none load_position)%bool then
    Raise (ValueError "Point load requires load_position")
  else if (load_kind_eqb load_type moment_load && is_none load_position)%bool then
    Raise (ValueError "Applied moment requires load_position")
  else
    euler_bernoulli_body length E second_moment load_type load_magnitude
      load_position boundary_conditions num_points.

End Beam.

(** ** [ColumnTheory] *)

Module Column.

Inductive end_condition : Type := pinned | fixed | fixed_free | fixed_pinned.

(** The [EulerBucklingResult] typed dictionary. *)
Record euler_buckling_result : Type := {
  critical_load : R;
  design_load : R;
  critical_stress : R;
  effective_length : R;
  K_factor : R;
  slenderness_ratio : R;
  radius_of_gyration : R;
  recommendation : string
}.

(** The [K_factors] dictionary, indexed by [end_conditions]. *)
Definition K_factors (end_conditions : end_condition) : R :=
  match end_conditions with
  | pinned => 1.0
  | fixed => 0.5
  | fixed_free => 2.0
  | fixed_pinned => 0.7
  end.

Definition short_column : string :=
  "Short column - check crushing/yielding instead of buckling".
Definition intermediate_column : string :=
  "Intermediate column - consider inelastic buckling".
Definition long_column : string :=
  "Long column - Euler buckling applicable".
Definition very_slender : string :=
  "Very slender - verify assumptions and consider imperfections".

(** The [if/elif/else] chain choosing the recommendation. *)
Definition recommend (slenderness_ratio : R) : string :=
  if Rlt_dec slenderness_ratio 50 then short_column
  else if Rlt_dec slenderness_ratio 100 then intermediate_column
  else if Rlt_dec slenderness_ratio 200 then long_column
  else very_slender.

(** [ColumnTheory.euler_buckling]. *)
Definition euler_buckling (length E second_moment : R)
    (end_conditions : end_condition) (safety_factor : R)
    : result euler_buckling_result :=
  if Rleb length 0 then Raise (ValueError "Length must be positive")
  else if Rleb E 0 then Raise (ValueError "Elastic modulus must be positive")
  else if Rleb second_moment 0 then
    Raise (ValueError "Second moment of area must be positive")
  else if Rleb safety_factor 0 then
    Raise (ValueError "Safety factor must be positive")
  else
    let K := K_factors end_conditions in
    let effective_length := K * length in
    let critical_load := (PI ^ 2 * E * second_moment) / (effective_length ^ 2) in
    let design_load := critical_load / safety_factor in
    let estimated_area := sqrt second_moment in
    let radius_of_gyration := sqrt (second_moment / estimated_area) in
    let slenderness_ratio := effective_length / radius_of_gyration in
    let critical_stress := critical_load / estimated_area in
    let recommendation := recommend slenderness_ratio in
    Ok {| critical_load := critical_load; design_load := design_load;
          critical_stress := critical_stress;
          effective_length := effective_length; K_factor := K;
          slenderness_ratio := slenderness_ratio;
          radius_of_gyration := radius_of_gyration;
          recommendation := recommendation |}.

End Column.

(** ** Vocabulary of the specification *)

Module BeamSpec.
Local Open Scope string_scope.
Import Beam.

(** The messages of the four validation [raise]s of [euler_bernoulli]. *)
Definition validation_messages : list string :=
  [ "Length, E, and second_moment must be positive";
    "Load magnitude cannot be zero";
    "Point load requires load_position";
    "Applied moment requires load_position" ].

(** The call fails with one of the validation ([InvalidParameter]) errors. *)
Definition raises_invalid_parameter {A : Type} (res : result A) : Prop :=
  exists m, res = Raise (ValueError m) /\ In m validation_messages.

(** The spec's precondition violations. *)
Definition precondition_violated (length E second_moment : R)
    (load_type : load_kind) (load_magnitude : R) (load_position : option R)
    : Prop :=
  length <= 0 \/ E <= 0 \/ second_moment <= 0 \/ load_magnitude = 0 \/
  ((load_type = point \/ load_type = moment_load) /\ load_position = None).

(** [P xi yi] holds for each station [xi] and the value [yi] reported at
    the same index. *)
Definition at_stations (xs ys : list R) (P : R -> R -> Prop) : Prop :=
  List.length xs = List.length ys /\
  forall i xi yi, nth_error xs i = Some xi -> nth_error ys i = Some yi -> P xi yi.

End BeamSpec.

(** * Facts about the beam solver *)

Module BeamFacts.
Import Beam BeamSpec.

(** Case analysis on the float comparisons, closing impossible cases. *)
Ltac decide_R :=
  repeat match goal with
  | |- context [Rle_dec ?a ?b] => destruct (Rle_dec a b); try lra
  | |- context [Rlt_dec ?a ?b] => destruct (Rlt_dec a b); try lra
  | |- context [Req_dec_T ?a ?b] => destruct (Req_dec_T a b); try lra
  end.

(** *** [np.linspace] *)

Lemma linspace_length (L : R) (N : Z) :
  (0 <= N)%Z ->
  exists xs, Np.linspace 0 L N = Ok xs /\ List.length xs = Z.to_nat N.
Proof.
  intros HN. unfold Np.linspace.
  destruct (Z.ltb_spec N 0) as [H | _]; [lia |].
  destruct (Nat.ltb_spec 0 (Z.to_nat N - 1)) as [H | H]; eexists; split; try reflexivity.
  - rewrite length_app, length_map, length_seq. simpl. lia.
  - rewrite length_map, length_seq. reflexivity.
Qed.

(** With at least two samples, station [i] is [i * L / (N - 1)]. *)
Lemma linspace_nth (L : R) (N : Z) (xs : list R) :
  (2 <= N)%Z -> Np.linspace 0 L N = Ok xs ->
  forall i, (i < Z.to_nat N)%nat ->
  nth_error xs i = Some (INR i * (L / INR (Z.to_nat N - 1))).
Proof.
  intros HN Hxs i Hi. unfold Np.linspace in Hxs.
  destruct (Z.ltb_spec N 0) as [H | _]; [lia |].
  destruct (Nat.ltb_spec 0 (Z.to_nat N - 1)) as [_ | H]; [| lia].
  injection Hxs as <-.
  assert (Hpos : INR (Z.to_nat N - 1) <> 0).
  { apply not_0_INR. lia. }
  destruct (Nat.lt_ge_cases i (Z.to_nat N - 1)) as [Hlt | Hge].
  - rewrite nth_error_app1 by (rewrite length_map, length_seq; lia).
    rewrite nth_error_map, nth_error_seq by lia. destruct (Nat.ltb_spec i (Z.to_nat N - 1)); [| lia]. simpl. f_equal. rewrite Rminus_0_r, Rplus_0_r. reflexivity.
  - assert (i = Z.to_nat N - 1)%nat as -> by lia.
    rewrite nth_error_app2 by (rewrite length_map, length_seq; lia).
    rewrite length_map, length_seq, Nat.sub_diag. simpl. f_equal.
    field. exact Hpos.
Qed.

(** With one sample the only station is [0]. *)
Lemma linspace_one (L : R) : Np.linspace 0 L 1 = Ok [0].
Proof.
  unfold Np.linspace. simpl. f_equal. f_equal. ring.
Qed.

(** For a positive length every station lies in [[0, L]]. *)
Lemma linspace_range (L : R) (N : Z) (xs : list R) :
  0 < L -> Np.linspace 0 L N = Ok xs -> Forall (fun xi => 0 <= xi <= L) xs.
Proof.
  intros HL Hxs. unfold Np.linspace in Hxs.
  destruct (Z.ltb_spec N 0) as [H | HN]; [discriminate |].
  destruct (Nat.ltb_spec 0 (Z.to_nat N - 1)) as [Hd | Hd];
    injection Hxs as <-.
  - apply Forall_app. split; [| constructor; [lra | constructor]].
    apply Forall_forall. intros xi Hin. apply in_map_iff in Hin.
    destruct Hin as [i [<- Hin]]. apply in_seq in Hin.
    assert (Hle : INR i <= INR (Z.to_nat N - 1)) by (apply le_INR; lia).
    assert (Hp : 0 < INR (Z.to_nat N - 1)) by (apply lt_0_INR; lia).
    assert (H0 : 0 <= INR i) by apply pos_INR.
    assert (Hq : 0 <= INR i / INR (Z.to_nat N - 1) <= 1).
    { split.
      - unfold Rdiv. apply Rmult_le_pos; [lra |].
        left. apply Rinv_0_lt_compat. lra.
      - apply (Rmult_le_reg_r (INR (Z.to_nat N - 1))); [lra |].
        unfold Rdiv. rewrite Rmult_assoc, Rinv_l by lra. lra. }
    replace (INR i * ((L - 0) / INR (Z.to_nat N - 1)) + 0)
      with (L * (INR i / INR (Z.to_nat N - 1))) by (field; lra).
    nra.
  - apply Forall_forall. intros xi Hin. apply in_map_iff in Hin.
    destruct Hin as [i [<- Hin]]. apply in_seq in Hin.
    assert (i = 0)%nat as -> by lia. simpl. lra.
Qed.

(** *** [np.max(np.abs(arr))] *)

Lemma fold_max_ge_init (t : list R) (m : R) :
  m <= fold_left (fun m y => Rmax m (Rabs y)) t m.
Proof.
  revert m. induction t as [| y t IH]; intros m; simpl; [lra |].
  eapply Rle_trans; [apply Rmax_l | apply IH].
Qed.

Lemma fold_max_ge (t : list R) (m y : R) :
  In y t -> Rabs y <= fold_left (fun m y => Rmax m (Rabs y)) t m.
Proof.
  revert m. induction t as [| z t IH]; intros m Hin; simpl in *; [contradiction |].
  destruct Hin as [<- | Hin].
  - eapply Rle_trans; [apply Rmax_r | apply fold_max_ge_init].
  - apply IH. exact Hin.
Qed.

Lemma fold_max_le (t : list R) (m B : R) :
  m <= B -> Forall (fun y => Rabs y <= B) t ->
  fold_left (fun m y => Rmax m (Rabs y)) t m <= B.
Proof.
  revert m. induction t as [| y t IH]; intros m Hm Ht; simpl; [exact Hm |].
  inversion Ht as [| ? ? Hy Ht']; subst.
  apply IH; [apply Rmax_lub; assumption | exact Ht'].
Qed.

Lemma max_abs_ok (arr : list R) :
  arr <> [] -> exists v, Np.max_abs arr = Ok v.
Proof.
  destruct arr as [| h t]; [contradiction |]. intros _. eexists. reflexivity.
Qed.

Lemma max_abs_upper (arr : list R) (v y : R) :
  Np.max_abs arr = Ok v -> In y arr -> Rabs y <= v.
Proof.
  destruct arr as [| h t]; [discriminate |]. simpl. intros Hv Hin.
  injection Hv as <-. destruct Hin as [<- | Hin].
  - apply fold_max_ge_init.
  - apply fold_max_ge. exact Hin.
Qed.

Lemma max_abs_least (arr : list R) (v B : R) :
  Np.max_abs arr = Ok v -> Forall (fun y => Rabs y <= B) arr -> v <= B.
Proof.
  destruct arr as [| h t]; [discriminate |]. simpl. intros Hv Hall.
  injection Hv as <-. inversion Hall; subst. apply fold_max_le; assumption.
Qed.

Lemma max_abs_zeros (xs : list R) (v : R) :
  Np.max_abs (Np.zeros_like xs) = Ok v -> v = 0.
Proof.
  intros Hv. apply Rle_antisym.
  - apply (max_abs_least _ _ _ Hv). apply Forall_forall. intros y Hin.
    unfold Np.zeros_like in Hin. apply in_map_iff in Hin.
    destruct Hin as [? [<- _]]. rewrite Rabs_R0. lra.
  - destruct xs as [| h t]; [discriminate |].
    eapply Rle_trans; [apply Rabs_pos |]. apply (max_abs_upper _ _ 0 Hv).
    simpl. left. reflexivity.
Qed.

(** *** Validation *)

Lemma not_violated (L E I : R) (lt : load_kind) (mag : R) (pos : option R) :
  ~ precondition_violated L E I lt mag pos ->
  0 < L /\ 0 < E /\ 0 < I /\ mag <> 0 /\
  ((lt = point \/ lt = moment_load) -> pos <> None).
Proof.
  unfold precondition_violated. intros H.
  split; [apply Rnot_le_lt; intro; apply H; tauto |].
  split; [apply Rnot_le_lt; intro; apply H; tauto |].
  split; [apply Rnot_le_lt; intro; apply H; tauto |].
  split; [intro; apply H; tauto |].
  intros Hk Hn. apply H. tauto.
Qed.

Lemma validation_passes (L E I : R) (lt : load_kind) (mag : R)
    (pos : option R) (bc : boundary) (N : Z) :
  ~ precondition_violated L E I lt mag pos ->
  euler_bernoulli L E I lt mag pos bc N = euler_bernoulli_body L E I lt mag pos bc N.
Proof.
  intros H. apply not_violated in H. destruct H as (HL & HE & HI & Hm & Hp).
  unfold euler_bernoulli, Rleb, Reqb. decide_R.
  destruct lt, pos; simpl; try reflexivity; exfalso; apply (Hp (or_introl eq_refl) eq_refl)
    || apply (Hp (or_intror eq_refl) eq_refl).
Qed.

Lemma validation_fails (L E I : R) (lt : load_kind) (mag : R)
    (pos : option R) (bc : boundary) (N : Z) :
  precondition_violated L E I lt mag pos ->
  raises_invalid_parameter (euler_bernoulli L E I lt mag pos bc N).
Proof.
  unfold precondition_violated, raises_invalid_parameter, validation_messages.
  intros H. unfold euler_bernoulli, Rleb, Reqb.
  destruct (Rle_dec L 0); [simpl; eexists; split; [reflexivity | simpl; tauto] |].
  destruct (Rle_dec E 0); [simpl; eexists; split; [reflexivity | simpl; tauto] |].
  destruct (Rle_dec I 0); [simpl; eexists; split; [reflexivity | simpl; tauto] |].
  simpl. destruct (Req_dec_T mag 0); [eexists; split; [reflexivity | simpl; tauto] |].
  destruct H as [H | [H | [H | [H | [[-> | ->] ->]]]]]; try lra; try contradiction;
    simpl; eexists; split; try reflexivity; simpl; tauto.
Qed.

(** *** The body *)

Lemma dispatch_ok (xs : list R) (L E I : R) (lt : load_kind) (mag : R)
    (pos : option R) (bc : boundary) :
  ((lt = point \/ lt = moment_load) -> pos <> None) ->
  exists d m s, dispatch xs L E I lt mag pos bc = Ok (d, m, s) /\
    List.length d = List.length xs /\ List.length m = List.length xs /\
    List.length s = List.length xs.
Proof.
  intros Hp. unfold dispatch.
  destruct bc, lt; try destruct pos as [a |];
    try (exfalso; apply Hp; [tauto | reflexivity]);
    do 3 eexists; (split; [reflexivity |]); unfold Np.zeros_like;
    rewrite !length_map; auto.
Qed.

Lemma body_raise (L E I : R) (lt : load_kind) (mag : R) (pos : option R)
    (bc : boundary) (N : Z) (e : exn) :
  euler_bernoulli_body L E I lt mag pos bc N = Raise e ->
  e = ValueError Np.linspace_negative_msg \/ e = ValueError Np.max_empty_msg \/
  e = AssertionError.
Proof.
  unfold euler_bernoulli_body.
  destruct (Np.linspace 0 L N) as [xs |] eqn:Hx.
  2:{ unfold Np.linspace in Hx. destruct (Z.ltb N 0);
      [injection Hx as <-; simpl; intros [= <-]; tauto |].
      destruct (Nat.ltb _ _); discriminate. }
  simpl. destruct (dispatch xs L E I lt mag pos bc) as [[[d m] s] |] eqn:Hd; simpl.
  2:{ intros [= <-]. unfold dispatch in Hd.
      destruct bc, lt; try destruct pos; simpl in Hd; try discriminate;
        injection Hd as <-; tauto. }
  destruct (Np.max_abs d) as [vd |] eqn:Hmd; simpl.
  2:{ intros [= <-]. destruct d; simpl in Hmd; [| discriminate].
      injection Hmd as <-. tauto. }
  destruct (Np.max_abs m) as [vm |] eqn:Hmm; simpl; [discriminate |].
  intros [= <-]. destruct m; simpl in Hmm; [| discriminate].
  injection Hmm as <-. tauto.
Qed.

(** For a valid load description and at least one station the body
    returns the stations, the dispatched fields and their maxima. *)
Lemma body_ok (L E I : R) (lt : load_kind) (mag : R) (pos : option R)
    (bc : boundary) (N : Z) :
  ((lt = point \/ lt = moment_load) -> pos <> None) -> (1 <= N)%Z ->
  exists xs d m s vd vm,
    Np.linspace 0 L N = Ok xs /\ List.length xs = Z.to_nat N /\
    dispatch xs L E I lt mag pos bc = Ok (d, m, s) /\
    List.length d = List.length xs /\ List.length m = List.length xs /\
    List.length s = List.length xs /\
    Np.max_abs d = Ok vd /\ Np.max_abs m = Ok vm /\
    euler_bernoulli_body L E I lt mag pos bc N =
      Ok {| x := xs; deflection := d; moment := m; shear := s;
            max_deflection := vd; max_moment := vm |}.
Proof.
  intros Hp HN.
  destruct (linspace_length L N) as [xs [Hx Hlen]]; [lia |].
  destruct (dispatch_ok xs L E I lt mag pos bc Hp) as (d & m & s & Hd & Hld & Hlm & Hls).
  assert (Hne : forall l : list R, List.length l = List.length xs -> l <> []).
  { intros l Hl ->. simpl in Hl. destruct xs; simpl in Hlen; [lia | discriminate]. }
  destruct (max_abs_ok d (Hne d Hld)) as [vd Hvd].
  destruct (max_abs_ok m (Hne m Hlm)) as [vm Hvm].
  exists xs, d, m, s, vd, vm.
  repeat split; try assumption.
  unfold euler_bernoulli_body. rewrite Hx. simpl. rewrite Hd. simpl.
  rewrite Hvd. simpl. rewrite Hvm. reflexivity.
Qed.

Lemma valid_not_violated (L E I : R) (lt : load_kind) (mag : R) (pos : option R) :
  0 < L -> 0 < E -> 0 < I -> mag <> 0 ->
  ((lt = point \/ lt = moment_load) -> pos <> None) ->
  ~ precondition_violated L E I lt mag pos.
Proof.
  unfold precondition_violated. intros HL HE HI Hm Hp H.
  destruct H as [H | [H | [H | [H | [Hk Hn]]]]]; try lra; try contradiction.
  exact (Hp Hk Hn).
Qed.

Lemma precondition_violated_dec (L E I : R) (lt : load_kind) (mag : R)
    (pos : option R) :
  {precondition_violated L E I lt mag pos} + {~ precondition_violated L E I lt mag pos}.
Proof.
  unfold precondition_violated.
  destruct (Rle_dec L 0); [left; tauto |].
  destruct (Rle_dec E 0); [left; tauto |].
  destruct (Rle_dec I 0); [left; tauto |].
  destruct (Req_dec_T mag 0); [left; tauto |].
  destruct pos as [a |].
  - right. intros [H | [H | [H | [H | [_ H]]]]]; try contradiction; discriminate.
  - destruct lt; [left; tauto | right | left; tauto].
    intros [H | [H | [H | [H | [[Hk | Hk] _]]]]]; try contradiction; discriminate.
Qed.

Lemma numpy_msgs_not_validation :
  ~ In Np.linspace_negative_msg validation_messages /\
  ~ In Np.max_empty_msg validation_messages.
Proof.
  unfold validation_messages, Np.linspace_negative_msg, Np.max_empty_msg.
  split; simpl; intros [H | [H | [H | [H | []]]]]; discriminate.
Qed.

Lemma zeros_all_zero (xs : list R) : Forall (fun y => y = 0) (Np.zeros_like xs).
Proof.
  apply Forall_forall. intros y Hy. unfold Np.zeros_like in Hy.
  apply in_map_iff in Hy. destruct Hy as [? [<- _]]. reflexivity.
Qed.

Lemma at_stations_map (xs : list R) (f : R -> R) (P : R -> R -> Prop) :
  (forall xi, P xi (f xi)) -> at_stations xs (map f xs) P.
Proof.
  intros Hf. split; [rewrite length_map; reflexivity |].
  intros i xi yi Hx Hy. rewrite nth_error_map, Hx in Hy. simpl in Hy.
  injection Hy as <-. apply Hf.
Qed.

End BeamFacts.

(** * Claims about [BeamTheory.euler_bernoulli] *)

Module BeamClaims.
Import Beam BeamSpec BeamFacts.

(** C2: [euler_bernoulli] fails with one of its validation errors exactly
    when the length, modulus or second moment is non-positive, the load
    magnitude is zero, or a point or moment load has no position; with
    valid parameters (and at least one station) it returns a result for
    every load position, including one beyond the beam's length. *)
Theorem euler_bernoulli_invalid_iff (L E I : R) (lt : load_kind) (mag : R)
    (pos : option R) (bc : boundary) (N : Z) :
  (raises_invalid_parameter (euler_bernoulli L E I lt mag pos bc N) <->
     precondition_violated L E I lt mag pos) /\
  (~ precondition_violated L E I lt mag pos -> (1 <= N)%Z ->
     exists r, euler_bernoulli L E I lt mag pos bc N = Ok r).
Proof.
  split.
  - split; [| apply validation_fails].
    intros [msg [Hr Hin]].
    destruct (precondition_violated_dec L E I lt mag pos) as [Hv | Hv]; [exact Hv |].
    rewrite (validation_passes _ _ _ _ _ _ bc N Hv) in Hr.
    apply body_raise in Hr. exfalso.
    destruct numpy_msgs_not_validation as [H1 H2].
    destruct Hr as [Hr | [Hr | Hr]]; try discriminate; injection Hr as ->; auto.
  - intros Hv HN. rewrite (validation_passes _ _ _ _ _ _ bc N Hv).
    apply not_violated in Hv. destruct Hv as (_ & _ & _ & _ & Hp).
    destruct (body_ok L E I lt mag pos bc N Hp HN) as (xs & d & m & s & vd & vm & H).
    eexists. apply H.
Qed.

(** C10: the station count is not validated: with [num_points = 1] and
    otherwise valid parameters the call succeeds with one station, [x = [0]]. *)
Theorem euler_bernoulli_one_station (L E I : R) (lt : load_kind) (mag : R)
    (pos : option R) (bc : boundary) :
  ~ precondition_violated L E I lt mag pos ->
  exists r, euler_bernoulli L E I lt mag pos bc 1 = Ok r /\
    x r = [0] /\ List.length (deflection r) = 1%nat /\
    List.length (moment r) = 1%nat /\ List.length (shear r) = 1%nat.
Proof.
  intros Hv. rewrite (validation_passes _ _ _ _ _ _ bc 1 Hv).
  apply not_violated in Hv. destruct Hv as (_ & _ & _ & _ & Hp).
  destruct (body_ok L E I lt mag pos bc 1 Hp ltac:(lia))
    as (xs & d & m & s & vd & vm & Hx & Hlen & _ & Hld & Hlm & Hls & _ & _ & Hr).
  rewrite linspace_one in Hx. injection Hx as <-.
  eexists. split; [exact Hr |]. simpl. auto.
Qed.

(** C9: with valid parameters and [N >= 2] stations the four returned
    sequences have length [N]; station [i] is [i * L / (N - 1)], the first
    is [0], the last is [L], and the stations never decrease. *)
Theorem euler_bernoulli_stations (L E I : R) (lt : load_kind) (mag : R)
    (pos : option R) (bc : boundary) (N : Z) :
  ~ precondition_violated L E I lt mag pos -> (2 <= N)%Z ->
  exists r, euler_bernoulli L E I lt mag pos bc N = Ok r /\
    List.length (x r) = Z.to_nat N /\ List.length (deflection r) = Z.to_nat N /\
    List.length (moment r) = Z.to_nat N /\ List.length (shear r) = Z.to_nat N /\
    (forall i, (i < Z.to_nat N)%nat ->
       nth_error (x r) i = Some (INR i * (L / INR (Z.to_nat N - 1)))) /\
    nth_error (x r) 0 = Some 0 /\ nth_error (x r) (Z.to_nat N - 1) = Some L /\
    (forall i j xi xj, (i <= j)%nat -> nth_error (x r) i = Some xi ->
       nth_error (x r) j = Some xj -> xi <= xj).
Proof.
  intros Hv HN. rewrite (validation_passes _ _ _ _ _ _ bc N Hv).
  apply not_violated in Hv. destruct Hv as (HL & _ & _ & _ & Hp).
  destruct (body_ok L E I lt mag pos bc N Hp ltac:(lia))
    as (xs & d & m & s & vd & vm & Hx & Hlen & _ & Hld & Hlm & Hls & _ & _ & Hr).
  pose proof (linspace_nth L N xs HN Hx) as Hnth.
  assert (Hd : 0 < INR (Z.to_nat N - 1)) by (apply lt_0_INR; lia).
  eexists. split; [exact Hr |]. cbn [x deflection moment shear].
  split; [exact Hlen |]. split; [lia |]. split; [lia |]. split; [lia |].
  split; [exact Hnth |].
  split; [rewrite Hnth by lia; simpl; f_equal; ring |].
  split; [rewrite Hnth by lia; f_equal; field; lra |].
  intros i j xi xj Hij Hi Hj.
  assert (Hj' : (j < Z.to_nat N)%nat).
  { rewrite <- Hlen. apply nth_error_Some. rewrite Hj. discriminate. }
  rewrite Hnth in Hi by lia. rewrite Hnth in Hj by exact Hj'.
  injection Hi as <-. injection Hj as <-.
  apply Rmult_le_compat_r; [| apply le_INR; exact Hij].
  left. apply Rdiv_pos_pos; lra.
Qed.

(** C1: a moment load on a fixed-fixed beam has no formula: for valid
    parameters the call succeeds and the deflection, moment and shear stay
    all zero, so both maxima are [0]. *)
Theorem fixed_fixed_moment_zero (L E I M a : R) (N : Z) :
  0 < L -> 0 < E -> 0 < I -> M <> 0 -> (1 <= N)%Z ->
  exists r, euler_bernoulli L E I moment_load M (Some a) fixed_fixed N = Ok r /\
    Forall (fun y => y = 0) (deflection r) /\ Forall (fun y => y = 0) (moment r) /\
    Forall (fun y => y = 0) (shear r) /\
    max_deflection r = 0 /\ max_moment r = 0.
Proof.
  intros HL HE HI HM HN.
  assert (Hp : (moment_load = point \/ moment_load = moment_load) -> Some a <> None)
    by discriminate.
  rewrite (validation_passes _ _ _ _ _ _ fixed_fixed N
             (valid_not_violated _ _ _ _ _ _ HL HE HI HM Hp)).
  destruct (body_ok L E I moment_load M (Some a) fixed_fixed N Hp HN)
    as (xs & d & m & s & vd & vm & _ & _ & Hd & _ & _ & _ & Hvd & Hvm & Hr).
  simpl in Hd. injection Hd as <- <- <-.
  eexists. split; [exact Hr |]. simpl.
  repeat split; try apply zeros_all_zero.
  - exact (max_abs_zeros _ _ Hvd).
  - exact (max_abs_zeros _ _ Hvm).
Qed.

(** C8: under every boundary condition, a valid moment load gives a shear
    of exactly [0] at every station. *)
Theorem moment_load_zero_shear (L E I M a : R) (bc : boundary) (N : Z) :
  0 < L -> 0 < E -> 0 < I -> M <> 0 -> (1 <= N)%Z ->
  exists r, euler_bernoulli L E I moment_load M (Some a) bc N = Ok r /\
    Forall (fun y => y = 0) (shear r).
Proof.
  intros HL HE HI HM HN.
  assert (Hp : (moment_load = point \/ moment_load = moment_load) -> Some a <> None)
    by discriminate.
  rewrite (validation_passes _ _ _ _ _ _ bc N
             (valid_not_violated _ _ _ _ _ _ HL HE HI HM Hp)).
  destruct (body_ok L E I moment_load M (Some a) bc N Hp HN)
    as (xs & d & m & s & vd & vm & _ & _ & Hd & _ & _ & _ & _ & _ & Hr).
  eexists. split; [exact Hr |]. simpl.
  destruct bc; simpl in Hd; injection Hd as _ _ <-; apply zeros_all_zero.
Qed.

(** C3: with a point load [P] at [a], the simply supported shear has three
    branches ([P (L - a) / L] before the load, [- P a / L] after it, [0] at
    a station equal to [a]); the cantilever and fixed-fixed shears have two
    branches, [xi <= a] and [xi > a], the load point taking the left
    value. *)
Theorem point_load_shear_branches (L E I P a : R) (N : Z) :
  0 < L -> 0 < E -> 0 < I -> P <> 0 -> (1 <= N)%Z ->
  (exists r, euler_bernoulli L E I point P (Some a) simply_supported N = Ok r /\
     at_stations (x r) (shear r) (fun xi s =>
       (xi < a -> s = P * (L - a) / L) /\ (a < xi -> s = - (P * a / L)) /\
       (xi = a -> s = 0))) /\
  (exists r, euler_bernoulli L E I point P (Some a) cantilever N = Ok r /\
     at_stations (x r) (shear r) (fun xi s =>
       (xi <= a -> s = - P) /\ (a < xi -> s = 0))) /\
  (exists r, euler_bernoulli L E I point P (Some a) fixed_fixed N = Ok r /\
     at_stations (x r) (shear r) (fun xi s =>
       (xi <= a -> s = P * (L - a) ^ 2 * (3 * a + (L - a)) / L ^ 3) /\
       (a < xi -> s = P * (L - a) ^ 2 * (3 * a + (L - a)) / L ^ 3 - P))).
Proof.
  intros HL HE HI HP HN.
  assert (Hp : (point = point \/ point = moment_load) -> Some a <> None)
    by discriminate.
  pose proof (valid_not_violated _ _ _ _ _ _ HL HE HI HP Hp) as Hv.
  split; [| split];
  [ destruct (body_ok L E I point P (Some a) simply_supported N Hp HN)
      as (xs & d & m & s & vd & vm & _ & _ & Hd & _ & _ & _ & _ & _ & Hr);
    rewrite (validation_passes _ _ _ _ _ _ simply_supported N Hv)
  | destruct (body_ok L E I point P (Some a) cantilever N Hp HN)
      as (xs & d & m & s & vd & vm & _ & _ & Hd & _ & _ & _ & _ & _ & Hr);
    rewrite (validation_passes _ _ _ _ _ _ cantilever N Hv)
  | destruct (body_ok L E I point P (Some a) fixed_fixed N Hp HN)
      as (xs & d & m & s & vd & vm & _ & _ & Hd & _ & _ & _ & _ & _ & Hr);
    rewrite (validation_passes _ _ _ _ _ _ fixed_fixed N Hv) ];
  eexists; (split; [exact Hr |]); cbn [x shear];
  simpl in Hd; injection Hd as _ _ <-;
  apply at_stations_map; intros xi; decide_R;
  repeat split; intros; first [reflexivity | lra].
Qed.

(** *** Bounds of the simply supported distributed-load fields *)





Lemma max_abs_map_bound (xs : list R) (f : R -> R) (B v : R) :
  Forall (fun xi => Rabs (f xi) <= B) xs ->
  Np.max_abs (map f xs) = Ok v -> v <= B.
Proof.
  intros Hall Hv. apply (max_abs_least _ _ _ Hv). apply Forall_map. exact Hall.
Qed.

Lemma max_abs_map_at (xs : list R) (f : R -> R) (k : nat) (xk v : R) :
  nth_error xs k = Some xk -> Np.max_abs (map f xs) = Ok v -> Rabs (f xk) <= v.
Proof.
  intros Hk Hv. apply (max_abs_upper _ _ _ Hv). apply (nth_error_In _ k).
  rewrite nth_error_map, Hk. reflexivity.
Qed.

(** With an odd number [N >= 3] of stations the midpoint [L / 2] is one. *)
Lemma linspace_midpoint (L : R) (N : Z) (xs : list R) :
  (3 <= N)%Z -> Z.odd N = true -> Np.linspace 0 L N = Ok xs ->
  exists k, nth_error xs k = Some (L / 2).
Proof.
  intros HN Hodd Hx. apply Z.odd_spec in Hodd. destruct Hodd as [m Hm].
  exists (Z.to_nat m).
  rewrite (linspace_nth L N xs ltac:(lia) Hx (Z.to_nat m)) by lia.
  replace (Z.to_nat N - 1)%nat with (2 * Z.to_nat m)%nat by lia.
  assert (Hk : 0 < INR (Z.to_nat m)) by (apply lt_0_INR; lia).
  rewrite mult_INR. simpl (INR 2). f_equal. field. lra.
Qed.









End BeamClaims.

(** * Claims about [ColumnTheory.euler_buckling] *)

Module ColumnClaims.
Import Column BeamFacts.

Lemma euler_buckling_ok (L E I : R) (ec : end_condition) (SF : R) :
  0 < L -> 0 < E -> 0 < I -> 0 < SF ->
  euler_buckling L E I ec SF =
    Ok {| critical_load := PI ^ 2 * E * I / (K_factors ec * L) ^ 2;
          design_load := PI ^ 2 * E * I / (K_factors ec * L) ^ 2 / SF;
          critical_stress := PI ^ 2 * E * I / (K_factors ec * L) ^ 2 / sqrt I;
          effective_length := K_factors ec * L;
          K_factor := K_factors ec;
          slenderness_ratio := K_factors ec * L / sqrt (I / sqrt I);
          radius_of_gyration := sqrt (I / sqrt I);
          recommendation := recommend (K_factors ec * L / sqrt (I / sqrt I)) |}.
Proof.
  intros HL HE HI HS. unfold euler_buckling, Rleb. decide_R. reflexivity.
Qed.

Lemma K_factors_pos (ec : end_condition) : 0 < K_factors ec.
Proof. destruct ec; simpl; lra. Qed.

(** C4: for valid inputs [K] is looked up as pinned 1.0, fixed 0.5,
    fixed_free 2.0, fixed_pinned 0.7; the effective length is [K L], the
    critical load [pi^2 E I / (K L)^2] and the design load the critical
    load divided by the safety factor, all four returned. *)
Theorem euler_buckling_loads (L E I : R) (ec : end_condition) (SF : R) :
  0 < L -> 0 < E -> 0 < I -> 0 < SF ->
  exists r, euler_buckling L E I ec SF = Ok r /\
    K_factor r = match ec with
                 | pinned => 1.0 | fixed => 0.5
                 | fixed_free => 2.0 | fixed_pinned => 0.7
                 end /\
    effective_length r = K_factor r * L /\
    critical_load r = PI ^ 2 * E * I / effective_length r ^ 2 /\
    design_load r = critical_load r / SF.
Proof.
  intros HL HE HI HS. rewrite euler_buckling_ok by assumption.
  eexists. split; [reflexivity |]. simpl.
  repeat split.
Qed.

(** C5: the recommendation is one of four fixed strings chosen by the
    (positive) slenderness ratio [s]: [s < 50] short, [50 <= s < 100]
    intermediate, [100 <= s < 200] long, [200 <= s] very slender. *)
Theorem euler_buckling_recommendation (L E I : R) (ec : end_condition) (SF : R) :
  0 < L -> 0 < E -> 0 < I -> 0 < SF ->
  exists r, euler_buckling L E I ec SF = Ok r /\
    0 < slenderness_ratio r /\
    (slenderness_ratio r < 50 -> recommendation r = short_column) /\
    (50 <= slenderness_ratio r < 100 -> recommendation r = intermediate_column) /\
    (100 <= slenderness_ratio r < 200 -> recommendation r = long_column) /\
    (200 <= slenderness_ratio r -> recommendation r = very_slender) /\
    NoDup [short_column; intermediate_column; long_column; very_slender].
Proof.
  intros HL HE HI HS. rewrite euler_buckling_ok by assumption.
  eexists. split; [reflexivity |]. simpl.
  split.
  - apply Rdiv_pos_pos.
    + pose proof (K_factors_pos ec). nra.
    + apply sqrt_lt_R0. apply Rdiv_pos_pos; [exact HI | apply sqrt_lt_R0; exact HI].
  - unfold recommend.
    repeat split; intros; decide_R; try reflexivity.
    unfold short_column, intermediate_column, long_column, very_slender.
    repeat constructor; simpl; intros H; repeat destruct H as [H | H];
      try discriminate; contradiction.
Qed.

(** C6: the four checks of [euler_buckling] run in order, each failing
    check raising its own error naming the field; the four messages are
    distinct, and a call passing all four checks returns a result. *)
Theorem euler_buckling_validation (L E I : R) (ec : end_condition) (SF : R) :
  (L <= 0 ->
     euler_buckling L E I ec SF = Raise (ValueError "Length must be positive")) /\
  (0 < L -> E <= 0 ->
     euler_buckling L E I ec SF = Raise (ValueError "Elastic modulus must be positive")) /\
  (0 < L -> 0 < E -> I <= 0 ->
     euler_buckling L E I ec SF =
       Raise (ValueError "Second moment of area must be positive")) /\
  (0 < L -> 0 < E -> 0 < I -> SF <= 0 ->
     euler_buckling L E I ec SF = Raise (ValueError "Safety factor must be positive")) /\
  (0 < L -> 0 < E -> 0 < I -> 0 < SF -> exists r, euler_buckling L E I ec SF = Ok r) /\
  NoDup ["Length must be positive"; "Elastic modulus must be positive";
         "Second moment of area must be positive"; "Safety factor must be positive"]%string.
Proof.
  unfold euler_buckling, Rleb.
  repeat split; intros; decide_R; try (eexists; reflexivity).
  repeat constructor; simpl; intros H; repeat destruct H as [H | H];
    try discriminate; contradiction.
Qed.

End ColumnClaims.

(** * Instances of the claims at concrete inputs *)

Module Witnesses.
Import Beam BeamSpec BeamFacts BeamClaims.

Lemma euler_bernoulli_invalid_iff_witness :
  ~ precondition_violated 2 1 1 point 1 (Some 3) /\ (1 <= 5)%Z /\
  exists r, euler_bernoulli 2 1 1 point 1 (Some 3) simply_supported 5 = Ok r.
Proof.
  assert (Hv : ~ precondition_violated 2 1 1 point 1 (Some 3)).
  { apply valid_not_violated; try lra. discriminate. }
  split; [exact Hv |]. split; [lia |].
  exact (proj2 (euler_bernoulli_invalid_iff 2 1 1 point 1 (Some 3) simply_supported 5)
           Hv ltac:(lia)).
Defined.

Lemma euler_bernoulli_one_station_witness :
  ~ precondition_violated 2 1 1 distributed 1 None /\
  exists r, euler_bernoulli 2 1 1 distributed 1 None cantilever 1 = Ok r /\
    x r = [0] /\ List.length (deflection r) = 1%nat /\
    List.length (moment r) = 1%nat /\ List.length (shear r) = 1%nat.
Proof.
  assert (Hv : ~ precondition_violated 2 1 1 distributed 1 None).
  { apply valid_not_violated; try lra. intros [H | H]; discriminate. }
  split; [exact Hv |].
  exact (euler_bernoulli_one_station 2 1 1 distributed 1 None cantilever Hv).
Defined.

Lemma euler_bernoulli_stations_witness :
  ~ precondition_violated 2 1 1 point 1 (Some 1) /\ (2 <= 5)%Z /\
  exists r, euler_bernoulli 2 1 1 point 1 (Some 1) fixed_fixed 5 = Ok r /\
    List.length (x r) = 5%nat /\ List.length (deflection r) = 5%nat /\
    List.length (moment r) = 5%nat /\ List.length (shear r) = 5%nat /\
    (forall i, (i < 5)%nat -> nth_error (x r) i = Some (INR i * (2 / INR 4))) /\
    nth_error (x r) 0 = Some 0 /\ nth_error (x r) 4 = Some 2 /\
    (forall i j xi xj, (i <= j)%nat -> nth_error (x r) i = Some xi ->
       nth_error (x r) j = Some xj -> xi <= xj).
Proof.
  assert (Hv : ~ precondition_violated 2 1 1 point 1 (Some 1)).
  { apply valid_not_violated; try lra. discriminate. }
  split; [exact Hv |]. split; [lia |].
  exact (euler_bernoulli_stations 2 1 1 point 1 (Some 1) fixed_fixed 5 Hv ltac:(lia)).
Defined.

Lemma fixed_fixed_moment_zero_witness :
  (0 < 2 /\ 0 < 1 /\ 0 < 1 /\ 3 <> 0 /\ (1 <= 5)%Z) /\
  exists r, euler_bernoulli 2 1 1 moment_load 3 (Some 1) fixed_fixed 5 = Ok r /\
    Forall (fun y => y = 0) (deflection r) /\ Forall (fun y => y = 0) (moment r) /\
    Forall (fun y => y = 0) (shear r) /\
    max_deflection r = 0 /\ max_moment r = 0.
Proof.
  split; [repeat split; lra || lia |].
  apply (fixed_fixed_moment_zero 2 1 1 3 1 5); lra || lia.
Defined.

Lemma moment_load_zero_shear_witness :
  (0 < 2 /\ 0 < 1 /\ 0 < 1 /\ 3 <> 0 /\ (1 <= 5)%Z) /\
  exists r, euler_bernoulli 2 1 1 moment_load 3 (Some 1) cantilever 5 = Ok r /\
    Forall (fun y => y = 0) (shear r).
Proof.
  split; [repeat split; lra || lia |].
  apply (moment_load_zero_shear 2 1 1 3 1 cantilever 5); lra || lia.
Defined.

Lemma point_load_shear_branches_witness :
  (0 < 2 /\ 0 < 1 /\ 0 < 1 /\ 1 <> 0 /\ (1 <= 3)%Z) /\
  exists r, euler_bernoulli 2 1 1 point 1 (Some 1) simply_supported 3 = Ok r /\
    at_stations (x r) (shear r) (fun xi s =>
      (xi < 1 -> s = 1 * (2 - 1) / 2) /\ (1 < xi -> s = - (1 * 1 / 2)) /\
      (xi = 1 -> s = 0)).
Proof.
  split; [repeat split; lra || lia |].
  apply (point_load_shear_branches 2 1 1 1 1 3); lra || lia.
Defined.


End Witnesses.

Module ColumnWitnesses.
Import Column ColumnClaims.

Lemma euler_buckling_loads_witness :
  (0 < 4 /\ 0 < 200 /\ 0 < 1 /\ 0 < 2) /\
  exists r, euler_buckling 4 200 1 fixed_pinned 2 = Ok r /\
    K_factor r = 0.7 /\ effective_length r = K_factor r * 4 /\
    critical_load r = PI ^ 2 * 200 * 1 / effective_length r ^ 2 /\
    design_load r = critical_load r / 2.
Proof.
  split; [repeat split; lra |].
  apply (euler_buckling_loads 4 200 1 fixed_pinned 2); lra.
Defined.

Lemma euler_buckling_recommendation_witness :
  (0 < 4 /\ 0 < 200 /\ 0 < 1 /\ 0 < 1) /\
  exists r, euler_buckling 4 200 1 pinned 1 = Ok r /\
    0 < slenderness_ratio r /\
    (slenderness_ratio r < 50 -> recommendation r = short_column) /\
    (50 <= slenderness_ratio r < 100 -> recommendation r = intermediate_column) /\
    (100 <= slenderness_ratio r < 200 -> recommendation r = long_column) /\
    (200 <= slenderness_ratio r -> recommendation r = very_slender) /\
    NoDup [short_column; intermediate_column; long_column; very_slender].
Proof.
  split; [repeat split; lra |].
  apply (euler_buckling_recommendation 4 200 1 pinned 1); lra.
Defined.

Lemma euler_buckling_validation_witness :
  (0 < 4 /\ 0 < 200 /\ -1 <= 0) /\
  euler_buckling 4 200 (-1) fixed 1 =
    Raise (ValueError "Second moment of area must be positive").
Proof.
  split; [repeat split; lra |].
  apply (proj1 (proj2 (proj2 (euler_buckling_validation 4 200 (-1) fixed 1)))); lra.
Defined.

End ColumnWitnesses.

(** * Further properties of the beam solver *)

Module BeamExtraFacts.
Import Beam BeamSpec BeamFacts.

Ltac field_pos :=
  field; repeat split; try assumption; try lra.

Lemma linspace_first (L : R) (N : Z) (xs : list R) :
  (1 <= N)%Z -> Np.linspace 0 L N = Ok xs -> nth_error xs 0 = Some 0.
Proof.
  intros HN Hx. destruct (Z.eq_dec N 1) as [-> | Hne].
  - rewrite linspace_one in Hx. injection Hx as <-. reflexivity.
  - rewrite (linspace_nth L N xs ltac:(lia) Hx 0) by lia. simpl. f_equal. ring.
Qed.

Lemma linspace_last (L : R) (N : Z) (xs : list R) :
  (2 <= N)%Z -> Np.linspace 0 L N = Ok xs -> nth_error xs (Z.to_nat N - 1) = Some L.
Proof.
  intros HN Hx. rewrite (linspace_nth L N xs HN Hx) by lia.
  assert (0 < INR (Z.to_nat N - 1)) by (apply lt_0_INR; lia).
  f_equal. field. lra.
Qed.

Lemma fold_max_scale (t : list R) (c m : R) :
  fold_left (fun m y => Rmax m (Rabs y)) (map (fun y => c * y) t) (Rabs c * m) =
  Rabs c * fold_left (fun m y => Rmax m (Rabs y)) t m.
Proof.
  revert m. induction t as [| z t IH]; intros m; simpl; [reflexivity |].
  rewrite Rabs_mult, RmaxRmult by apply Rabs_pos. apply IH.
Qed.

Lemma max_abs_scale (l : list R) (c v : R) :
  Np.max_abs l = Ok v -> Np.max_abs (map (fun y => c * y) l) = Ok (Rabs c * v).
Proof.
  destruct l as [| h t]; [discriminate |]. simpl. intros Hv. injection Hv as <-.
  rewrite Rabs_mult, fold_max_scale. reflexivity.
Qed.

Lemma fields_eq (d m s d' m' s' : list R) :
  d = d' -> m = m' -> s = s' -> @Ok fields (d, m, s) = Ok (d', m', s').
Proof. intros -> -> ->. reflexivity. Qed.

(** Scaling the load magnitude scales each of the three fields. *)
Lemma dispatch_scale (xs : list R) (L E I : R) (lt : load_kind) (mag c : R)
    (pos : option R) (bc : boundary) (d m s : list R) :
  L <> 0 -> E <> 0 -> I <> 0 ->
  dispatch xs L E I lt mag pos bc = Ok (d, m, s) ->
  dispatch xs L E I lt (c * mag) pos bc =
    Ok (map (fun y => c * y) d, map (fun y => c * y) m, map (fun y => c * y) s).
Proof.
  intros HL HE HI Hd.
  destruct bc, lt; try destruct pos as [a |];
    cbv [dispatch simply_supported_point_load simply_supported_distributed_load
         simply_supported_moment cantilever_point_load cantilever_distributed_load
         cantilever_moment fixed_fixed_point_load fixed_fixed_distributed_load
         Np.zeros_like] in Hd |- *; try discriminate;
    injection Hd as <- <- <-; rewrite !map_map;
    apply fields_eq; apply map_ext; intros xi; decide_R; field_pos.
Qed.

Lemma Rabs_scale (P t : R) : 0 <= t -> Rabs (P * t) = Rabs P * t.
Proof. intros H. rewrite Rabs_mult, (Rabs_pos_eq t H). reflexivity. Qed.

Lemma Rdiv_nonneg (p q : R) : 0 <= p -> 0 < q -> 0 <= p / q.
Proof.
  intros Hp Hq. unfold Rdiv. apply Rmult_le_pos; [exact Hp |].
  left. apply Rinv_0_lt_compat. exact Hq.
Qed.

(** Stations mirror about the centre: a profile [f] with [f (L - x) = f x]
    gives a list equal to its own reverse. *)
Lemma map_mirror (L : R) (N : Z) (xs : list R) (f : R -> R) :
  0 < L -> Np.linspace 0 L N = Ok xs ->
  (forall xi, 0 <= xi <= L -> f (L - xi) = f xi) ->
  map f xs = rev (map f xs).
Proof.
  intros HL Hx Hf.
  assert (HN0 : (0 <= N)%Z).
  { unfold Np.linspace in Hx. destruct (Z.ltb_spec N 0); [discriminate | lia]. }
  destruct (linspace_length L N HN0) as (xs' & Hx' & Hlen).
  rewrite Hx in Hx'. injection Hx' as <-.
  destruct (Z_lt_le_dec N 2) as [Hs | H2].
  - destruct xs as [| y [| z t]]; try reflexivity. simpl in Hlen. lia.
  - pose proof (linspace_range L N xs HL Hx) as Hr.
    apply nth_ext with (d := 0) (d' := 0).
    { rewrite length_rev. reflexivity. }
    intros n Hn. rewrite length_map, Hlen in Hn.
    rewrite rev_nth by (rewrite length_map, Hlen; exact Hn).
    rewrite length_map, Hlen.
    set (k := (Z.to_nat N - S n)%nat).
    assert (Hk : (k < Z.to_nat N)%nat) by (unfold k; lia).
    pose proof (linspace_nth L N xs H2 Hx n Hn) as En.
    pose proof (linspace_nth L N xs H2 Hx k Hk) as Ek.
    rewrite (nth_error_nth (map f xs) n (x := f (INR n * (L / INR (Z.to_nat N - 1)))) 0)
      by (rewrite nth_error_map, En; reflexivity).
    rewrite (nth_error_nth (map f xs) k (x := f (INR k * (L / INR (Z.to_nat N - 1)))) 0)
      by (rewrite nth_error_map, Ek; reflexivity).
    assert (Hpos : 0 < INR (Z.to_nat N - 1)) by (apply lt_0_INR; lia).
    replace (INR k * (L / INR (Z.to_nat N - 1)))
      with (L - INR n * (L / INR (Z.to_nat N - 1))).
    + symmetry. apply Hf. rewrite Forall_forall in Hr. apply Hr.
      apply (nth_error_In _ n). exact En.
    + unfold k. replace (Z.to_nat N - S n)%nat with ((Z.to_nat N - 1) - n)%nat by lia.
      rewrite (minus_INR (Z.to_nat N - 1) n) by lia. field. lra.
Qed.

(** Restate the argument of [Rabs] (in the goal or in a hypothesis) as
    [e], proving the two equal by [field]. *)
Ltac reshape_abs e :=
  match goal with |- Rabs ?t <= _ => replace t with e by (field; try nra) end.
Ltac reshape_abs_in H e :=
  match type of H with Rabs ?t <= _ => replace t with e in H by (field; try nra) end.

(** Discharges the hypotheses of a statement at concrete inputs. *)
Ltac witness_hyp :=
  match goal with
  | |- ~ precondition_violated _ _ _ _ _ _ =>
      apply valid_not_violated; try lra;
      first [intros _; discriminate | intros [H | H]; discriminate]
  | |- forall a, Some _ = Some a -> _ =>
      let a := fresh "a" in let H := fresh "H" in
      intros a H; injection H as <-; lra
  | |- _ \/ _ =>
      first [left; reflexivity | right; split; reflexivity]
  | |- _ => first [lra | lia | discriminate]
  end.

End BeamExtraFacts.

Module BeamExtra.
Import Beam BeamSpec BeamFacts BeamClaims BeamExtraFacts.

(** Under every boundary condition and load type, the deflection at the
    first station [x = 0] is [0], provided the load position (when there is
    one) is not negative. *)
Theorem left_end_deflection_zero (L E I : R) (lt : load_kind) (mag : R)
    (pos : option R) (bc : boundary) (N : Z) :
  ~ precondition_violated L E I lt mag pos ->
  (forall a, pos = Some a -> 0 <= a) -> (1 <= N)%Z ->
  exists r, euler_bernoulli L E I lt mag pos bc N = Ok r /\
    nth_error (x r) 0 = Some 0 /\ nth_error (deflection r) 0 = Some 0.
Proof.
  intros Hv Ha HN. rewrite (validation_passes _ _ _ _ _ _ bc N Hv).
  apply not_violated in Hv. destruct Hv as (HL & HE & HI & _ & Hp).
  destruct (body_ok L E I lt mag pos bc N Hp HN)
    as (xs & d & m & s & vd & vm & Hx & _ & Hd & _ & _ & _ & _ & _ & Hr).
  pose proof (linspace_first L N xs HN Hx) as H0.
  eexists. split; [exact Hr |]. cbn [x deflection].
  split; [exact H0 |].
  destruct bc, lt; try destruct pos as [a |];
    try specialize (Ha a eq_refl);
    cbv [dispatch simply_supported_point_load simply_supported_distributed_load
         simply_supported_moment cantilever_point_load cantilever_distributed_load
         cantilever_moment fixed_fixed_point_load fixed_fixed_distributed_load
         Np.zeros_like] in Hd; try discriminate;
    injection Hd as <- _ _; rewrite nth_error_map, H0; cbn [option_map];
    f_equal; decide_R; field_pos.
Qed.

(** For simply supported and fixed-fixed beams, the deflection at the last
    station [x = L] is [0] when the load position (if any) lies in
    [[0, L]]. *)
Theorem right_end_deflection_zero (L E I : R) (lt : load_kind) (mag : R)
    (pos : option R) (bc : boundary) (N : Z) :
  ~ precondition_violated L E I lt mag pos ->
  (bc = simply_supported \/ bc = fixed_fixed) ->
  (forall a, pos = Some a -> 0 <= a <= L) -> (2 <= N)%Z ->
  exists r, euler_bernoulli L E I lt mag pos bc N = Ok r /\
    nth_error (x r) (Z.to_nat N - 1) = Some L /\
    nth_error (deflection r) (Z.to_nat N - 1) = Some 0.
Proof.
  intros Hv Hbc Ha HN. rewrite (validation_passes _ _ _ _ _ _ bc N Hv).
  apply not_violated in Hv. destruct Hv as (HL & HE & HI & _ & Hp).
  destruct (body_ok L E I lt mag pos bc N Hp ltac:(lia))
    as (xs & d & m & s & vd & vm & Hx & _ & Hd & _ & _ & _ & _ & _ & Hr).
  pose proof (linspace_last L N xs HN Hx) as HLst.
  eexists. split; [exact Hr |]. cbn [x deflection].
  split; [exact HLst |].
  destruct Hbc as [-> | ->], lt; try destruct pos as [a |];
    try specialize (Ha a eq_refl);
    cbv [dispatch simply_supported_point_load simply_supported_distributed_load
         simply_supported_moment fixed_fixed_point_load fixed_fixed_distributed_load
         Np.zeros_like] in Hd; try discriminate;
    injection Hd as <- _ _; rewrite nth_error_map, HLst; cbn [option_map];
    f_equal; decide_R; try (assert (a = L) by lra; subst a); field_pos.
Qed.

(** The fields are linear in the load magnitude: multiplying it by a
    nonzero [c] multiplies every deflection, moment and shear by [c] and
    both maxima by [|c|], with the same stations. *)
Theorem load_magnitude_scaling (L E I : R) (lt : load_kind) (mag c : R)
    (pos : option R) (bc : boundary) (N : Z) :
  ~ precondition_violated L E I lt mag pos -> c <> 0 -> (1 <= N)%Z ->
  exists r r',
    euler_bernoulli L E I lt mag pos bc N = Ok r /\
    euler_bernoulli L E I lt (c * mag) pos bc N = Ok r' /\
    x r' = x r /\
    deflection r' = map (fun y => c * y) (deflection r) /\
    moment r' = map (fun y => c * y) (moment r) /\
    shear r' = map (fun y => c * y) (shear r) /\
    max_deflection r' = Rabs c * max_deflection r /\
    max_moment r' = Rabs c * max_moment r.
Proof.
  intros Hv Hc HN.
  pose proof (not_violated _ _ _ _ _ _ Hv) as (HL & HE & HI & Hm & Hp).
  assert (Hv' : ~ precondition_violated L E I lt (c * mag) pos).
  { apply valid_not_violated; try assumption.
    apply Rmult_integral_contrapositive_currified; assumption. }
  rewrite (validation_passes _ _ _ _ _ _ bc N Hv), (validation_passes _ _ _ _ _ _ bc N Hv').
  destruct (body_ok L E I lt mag pos bc N Hp HN)
    as (xs & d & m & s & vd & vm & Hx & _ & Hd & _ & _ & _ & Hvd & Hvm & Hr).
  pose proof (dispatch_scale xs L E I lt mag c pos bc d m s
                ltac:(lra) ltac:(lra) ltac:(lra) Hd) as Hd'.
  exists {| x := xs; deflection := d; moment := m; shear := s;
            max_deflection := vd; max_moment := vm |}.
  exists {| x := xs; deflection := map (fun y => c * y) d;
            moment := map (fun y => c * y) m; shear := map (fun y => c * y) s;
            max_deflection := Rabs c * vd; max_moment := Rabs c * vm |}.
  split; [exact Hr |]. split.
  - unfold euler_bernoulli_body. rewrite Hx. cbn [bind]. rewrite Hd'. cbn [bind].
    rewrite (max_abs_scale _ _ _ Hvd). cbn [bind].
    rewrite (max_abs_scale _ _ _ Hvm). reflexivity.
  - cbn [x deflection moment shear max_deflection max_moment]. repeat split.
Qed.

(** For the point-load solvers, the deflection and moment branches meet at
    the load point: the left formula holds at every station [xi <= a] and
    the right formula at every station [xi >= a] (both at [xi = a]). *)
Theorem point_load_branches_meet (L E I P a : R) (N : Z) :
  0 < L -> 0 < E -> 0 < I -> P <> 0 -> (1 <= N)%Z ->
  (exists r, euler_bernoulli L E I point P (Some a) simply_supported N = Ok r /\
     at_stations (x r) (deflection r) (fun xi y =>
       (xi <= a -> y = P * (L - a) * xi * (L ^ 2 - (L - a) ^ 2 - xi ^ 2) / (6 * E * I * L)) /\
       (a <= xi -> y = P * a * (L - xi) * (2 * L * xi - xi ^ 2 - a ^ 2) / (6 * E * I * L))) /\
     at_stations (x r) (moment r) (fun xi y =>
       (xi <= a -> y = P * (L - a) / L * xi) /\
       (a <= xi -> y = P * (L - a) / L * xi - P * (xi - a)))) /\
  (exists r, euler_bernoulli L E I point P (Some a) cantilever N = Ok r /\
     at_stations (x r) (deflection r) (fun xi y =>
       (xi <= a -> y = P * xi ^ 2 * (3 * a - xi) / (6 * E * I)) /\
       (a <= xi -> y = P * a ^ 2 * (3 * xi - a) / (6 * E * I))) /\
     at_stations (x r) (moment r) (fun xi y =>
       (xi <= a -> y = - P * (a - xi)) /\ (a <= xi -> y = 0))) /\
  (exists r, euler_bernoulli L E I point P (Some a) fixed_fixed N = Ok r /\
     at_stations (x r) (deflection r) (fun xi y =>
       let R1 := P * (L - a) ^ 2 * (3 * a + (L - a)) / L ^ 3 in
       let M1 := P * a * (L - a) ^ 2 / L ^ 2 in
       (xi <= a -> y = (R1 * xi ^ 3 / 6 - M1 * xi ^ 2 / 2) / (E * I)) /\
       (a <= xi -> y = (R1 * xi ^ 3 / 6 - M1 * xi ^ 2 / 2 - P * (xi - a) ^ 3 / 6) / (E * I))) /\
     at_stations (x r) (moment r) (fun xi y =>
       let R1 := P * (L - a) ^ 2 * (3 * a + (L - a)) / L ^ 3 in
       let M1 := P * a * (L - a) ^ 2 / L ^ 2 in
       (xi <= a -> y = R1 * xi - M1) /\ (a <= xi -> y = R1 * xi - M1 - P * (xi - a)))).
Proof.
  intros HL HE HI HP HN.
  assert (Hp : (point = point \/ point = moment_load) -> Some a <> None)
    by discriminate.
  pose proof (valid_not_violated _ _ _ _ _ _ HL HE HI HP Hp) as Hv.
  split; [| split];
  [ destruct (body_ok L E I point P (Some a) simply_supported N Hp HN)
      as (xs & d & m & s & vd & vm & _ & _ & Hd & _ & _ & _ & _ & _ & Hr);
    rewrite (validation_passes _ _ _ _ _ _ simply_supported N Hv)
  | destruct (body_ok L E I point P (Some a) cantilever N Hp HN)
      as (xs & d & m & s & vd & vm & _ & _ & Hd & _ & _ & _ & _ & _ & Hr);
    rewrite (validation_passes _ _ _ _ _ _ cantilever N Hv)
  | destruct (body_ok L E I point P (Some a) fixed_fixed N Hp HN)
      as (xs & d & m & s & vd & vm & _ & _ & Hd & _ & _ & _ & _ & _ & Hr);
    rewrite (validation_passes _ _ _ _ _ _ fixed_fixed N Hv) ];
  eexists; (split; [exact Hr |]); cbn [x deflection moment];
  cbv [dispatch simply_supported_point_load cantilever_point_load
       fixed_fixed_point_load] in Hd;
  injection Hd as <- <- _;
  split; apply at_stations_map; intros xi; cbv zeta; decide_R;
  split; intros; try (assert (xi = a) by lra; subst xi); field_pos.
Qed.

(** Simply supported beam, point load [P] at [a] in [[0, L]]: no station's
    moment exceeds [|P| a (L - a) / L] in absolute value, and
    [max_moment] equals it when [a] is one of the stations. *)
Theorem ss_point_max_moment (L E I P a : R) (N : Z) :
  0 < L -> 0 < E -> 0 < I -> P <> 0 -> 0 <= a <= L -> (1 <= N)%Z ->
  exists r, euler_bernoulli L E I point P (Some a) simply_supported N = Ok r /\
    max_moment r <= Rabs P * a * (L - a) / L /\
    (In a (x r) -> max_moment r = Rabs P * a * (L - a) / L).
Proof.
  intros HL HE HI HP Ha HN.
  assert (Hp : (point = point \/ point = moment_load) -> Some a <> None)
    by discriminate.
  rewrite (validation_passes _ _ _ _ _ _ simply_supported N
             (valid_not_violated _ _ _ _ _ _ HL HE HI HP Hp)).
  destruct (body_ok L E I point P (Some a) simply_supported N Hp HN)
    as (xs & d & m & s & vd & vm & Hx & _ & Hd & _ & _ & _ & _ & Hvm & Hr).
  pose proof (linspace_range L N xs HL Hx) as Hrange.
  cbv [dispatch simply_supported_point_load] in Hd. injection Hd as _ <- _.
  assert (Hq : 0 <= (L - a) / L) by (apply Rdiv_nonneg; lra).
  assert (Hq' : 0 <= a / L) by (apply Rdiv_nonneg; lra).
  assert (HB : Rabs P * a * (L - a) / L = Rabs P * ((L - a) / L * a)) by (field; lra).
  assert (Hbound : vm <= Rabs P * a * (L - a) / L).
  { eapply max_abs_map_bound; [| exact Hvm].
    eapply Forall_impl; [| exact Hrange]. intros xi Hxi. cbv beta. rewrite HB.
    decide_R.
    - replace (P * (L - a) / L * xi) with (P * ((L - a) / L * xi)) by (field; lra).
      rewrite Rabs_scale by nra. apply Rmult_le_compat_l; [apply Rabs_pos | nra].
    - replace (P * (L - a) / L * xi - P * (xi - a)) with (P * (a / L * (L - xi)))
        by (field; lra).
      rewrite Rabs_scale by nra. apply Rmult_le_compat_l; [apply Rabs_pos |].
      replace ((L - a) / L * a) with (a / L * (L - a)) by (field; lra). nra. }
  eexists. split; [exact Hr |]. cbn [x max_moment].
  split; [exact Hbound |]. intros Hin.
  apply Rle_antisym; [exact Hbound |].
  pose proof (max_abs_upper _ _ (P * (L - a) / L * a) Hvm) as Hup.
  rewrite HB.
  replace (P * (L - a) / L * a) with (P * ((L - a) / L * a)) in Hup by (field; lra).
  rewrite Rabs_scale in Hup by nra. apply Hup.
  apply in_map_iff. exists a. split; [decide_R; field; lra | exact Hin].
Qed.

(** Cantilever, point load [P] at [a >= 0]: [max_moment] is exactly
    [|P| a], reached at the fixed end [x = 0], whatever the station count. *)
Theorem cantilever_point_max_moment (L E I P a : R) (N : Z) :
  0 < L -> 0 < E -> 0 < I -> P <> 0 -> 0 <= a -> (1 <= N)%Z ->
  exists r, euler_bernoulli L E I point P (Some a) cantilever N = Ok r /\
    max_moment r = Rabs P * a.
Proof.
  intros HL HE HI HP Ha HN.
  assert (Hp : (point = point \/ point = moment_load) -> Some a <> None)
    by discriminate.
  rewrite (validation_passes _ _ _ _ _ _ cantilever N
             (valid_not_violated _ _ _ _ _ _ HL HE HI HP Hp)).
  destruct (body_ok L E I point P (Some a) cantilever N Hp HN)
    as (xs & d & m & s & vd & vm & Hx & _ & Hd & _ & _ & _ & _ & Hvm & Hr).
  pose proof (linspace_range L N xs HL Hx) as Hrange.
  pose proof (linspace_first L N xs HN Hx) as H0.
  cbv [dispatch cantilever_point_load] in Hd. injection Hd as _ <- _.
  eexists. split; [exact Hr |]. cbn [max_moment].
  apply Rle_antisym.
  - eapply max_abs_map_bound; [| exact Hvm].
    eapply Forall_impl; [| exact Hrange]. intros xi Hxi. cbv beta. decide_R.
    + replace (- P * (a - xi)) with (P * - (a - xi)) by ring.
      rewrite Rabs_mult, Rabs_Ropp, (Rabs_pos_eq (a - xi)) by lra.
      apply Rmult_le_compat_l; [apply Rabs_pos | lra].
    + rewrite Rabs_R0. apply Rmult_le_pos; [apply Rabs_pos | lra].
  - pose proof (max_abs_map_at _ _ _ _ _ H0 Hvm) as Hup. cbv beta in Hup.
    revert Hup. decide_R. intros Hup.
    replace (- P * (a - 0)) with (P * - a) in Hup by ring.
    rewrite Rabs_mult, Rabs_Ropp, (Rabs_pos_eq a) in Hup by lra. exact Hup.
Qed.

(** Cantilever under a distributed load [w]: [max_moment] is exactly
    [|w| L^2 / 2] (at the fixed end) for any station count, and with at
    least two stations [max_deflection] is exactly [|w| L^4 / (8 E I)] (at
    the free end). *)
Theorem cantilever_distributed_maxima (L E I w : R) (pos : option R) (N : Z) :
  0 < L -> 0 < E -> 0 < I -> w <> 0 -> (1 <= N)%Z ->
  exists r, euler_bernoulli L E I distributed w pos cantilever N = Ok r /\
    max_moment r = Rabs w * L ^ 2 / 2 /\
    ((2 <= N)%Z -> max_deflection r = Rabs w * L ^ 4 / (8 * E * I)).
Proof.
  intros HL HE HI Hw HN.
  assert (Hp : (distributed = point \/ distributed = moment_load) -> pos <> None)
    by (intros [H | H]; discriminate).
  rewrite (validation_passes _ _ _ _ _ _ cantilever N
             (valid_not_violated _ _ _ _ _ _ HL HE HI Hw Hp)).
  destruct (body_ok L E I distributed w pos cantilever N Hp HN)
    as (xs & d & m & s & vd & vm & Hx & _ & Hd & _ & _ & _ & Hvd & Hvm & Hr).
  pose proof (linspace_range L N xs HL Hx) as Hrange.
  pose proof (linspace_first L N xs HN Hx) as H0.
  cbv [dispatch cantilever_distributed_load] in Hd. injection Hd as <- <- _.
  assert (HD : 0 < / (24 * E * I)) by (apply Rinv_0_lt_compat; nra).
  eexists. split; [exact Hr |]. cbn [max_moment max_deflection]. split.
  - apply Rle_antisym.
    + eapply max_abs_map_bound; [| exact Hvm].
      eapply Forall_impl; [| exact Hrange]. intros xi Hxi. cbv beta.
      reshape_abs (w * - ((L - xi) ^ 2 / 2)).
      rewrite Rabs_mult, Rabs_Ropp, (Rabs_pos_eq ((L - xi) ^ 2 / 2))
        by (pose proof (pow2_ge_0 (L - xi)); lra).
      replace (Rabs w * L ^ 2 / 2) with (Rabs w * (L ^ 2 / 2)) by field.
      apply Rmult_le_compat_l; [apply Rabs_pos | nra].
    + pose proof (max_abs_map_at _ _ _ _ _ H0 Hvm) as Hup. cbv beta in Hup.
      reshape_abs_in Hup (w * - (L ^ 2 / 2)).
      rewrite Rabs_mult, Rabs_Ropp, (Rabs_pos_eq (L ^ 2 / 2)) in Hup
        by (pose proof (pow2_ge_0 L); lra).
      lra.
  - intros H2. pose proof (linspace_last L N xs H2 Hx) as HLst.
    assert (HB : Rabs w * L ^ 4 / (8 * E * I) = Rabs w * (3 * L ^ 4 * / (24 * E * I)))
      by (field; nra).
    rewrite HB. apply Rle_antisym.
    + eapply max_abs_map_bound; [| exact Hvd].
      eapply Forall_impl; [| exact Hrange]. intros xi Hxi. cbv beta.
      reshape_abs (w * (xi ^ 2 * (6 * L ^ 2 - 4 * L * xi + xi ^ 2) * / (24 * E * I))).
      assert (Hg0 : 0 <= xi ^ 2 * (6 * L ^ 2 - 4 * L * xi + xi ^ 2)).
      { apply Rmult_le_pos; [apply pow2_ge_0 |].
        pose proof (pow2_ge_0 (xi - 2 * L)). nra. }
      assert (Hg1 : xi ^ 2 * (6 * L ^ 2 - 4 * L * xi + xi ^ 2) <= 3 * L ^ 4).
      { assert (Hid : 3 * L ^ 4 - xi ^ 2 * (6 * L ^ 2 - 4 * L * xi + xi ^ 2) =
                      (L - xi) * (4 * L ^ 3 - (L - xi) ^ 3)) by ring.
        assert (Hc : (L - xi) ^ 3 <= L ^ 3).
        { apply pow_incr. lra. }
        assert (0 <= (L - xi) * (4 * L ^ 3 - (L - xi) ^ 3)).
        { apply Rmult_le_pos; [lra |]. pose proof (pow_lt L 3 HL). lra. }
        lra. }
      rewrite Rabs_scale by (apply Rmult_le_pos; lra).
      apply Rmult_le_compat_l; [apply Rabs_pos |].
      apply Rmult_le_compat_r; lra.
    + pose proof (max_abs_map_at _ _ _ _ _ HLst Hvd) as Hup. cbv beta in Hup.
      reshape_abs_in Hup (w * (3 * L ^ 4 * / (24 * E * I))).
      rewrite Rabs_scale in Hup by (pose proof (pow_lt L 4 HL); nra).
      exact Hup.
Qed.

(** Fixed-fixed beam under a distributed load [w]: [max_moment] is exactly
    [|w| L^2 / 12] (at the supports) for any station count; [max_deflection]
    never exceeds [|w| L^4 / (384 E I)] and equals it for an odd number of
    stations (at least 3). *)
Theorem fixed_fixed_distributed_maxima (L E I w : R) (pos : option R) (N : Z) :
  0 < L -> 0 < E -> 0 < I -> w <> 0 -> (1 <= N)%Z ->
  exists r, euler_bernoulli L E I distributed w pos fixed_fixed N = Ok r /\
    max_moment r = Rabs w * L ^ 2 / 12 /\
    max_deflection r <= Rabs w * L ^ 4 / (384 * E * I) /\
    ((3 <= N)%Z -> Z.odd N = true ->
       max_deflection r = Rabs w * L ^ 4 / (384 * E * I)).
Proof.
  intros HL HE HI Hw HN.
  assert (Hp : (distributed = point \/ distributed = moment_load) -> pos <> None)
    by (intros [H | H]; discriminate).
  rewrite (validation_passes _ _ _ _ _ _ fixed_fixed N
             (valid_not_violated _ _ _ _ _ _ HL HE HI Hw Hp)).
  destruct (body_ok L E I distributed w pos fixed_fixed N Hp HN)
    as (xs & d & m & s & vd & vm & Hx & _ & Hd & _ & _ & _ & Hvd & Hvm & Hr).
  pose proof (linspace_range L N xs HL Hx) as Hrange.
  pose proof (linspace_first L N xs HN Hx) as H0.
  cbv [dispatch fixed_fixed_distributed_load] in Hd. injection Hd as <- <- _.
  assert (HD : 0 < / (24 * E * I)) by (apply Rinv_0_lt_compat; nra).
  assert (HL2 : 0 <= L ^ 2) by apply pow2_ge_0.
  assert (HB : Rabs w * L ^ 4 / (384 * E * I) = Rabs w * (L ^ 4 / 16 * / (24 * E * I)))
    by (field; nra).
  assert (Hbd : vd <= Rabs w * L ^ 4 / (384 * E * I)).
  { rewrite HB. eapply max_abs_map_bound; [| exact Hvd].
    eapply Forall_impl; [| exact Hrange]. intros xi Hxi. cbv beta.
    reshape_abs (w * ((xi * (L - xi)) ^ 2 * / (24 * E * I))).
    assert (Hu : 0 <= xi * (L - xi) <= L ^ 2 / 4).
    { pose proof (pow2_ge_0 (L - 2 * xi)). split; nra. }
    rewrite Rabs_scale by (apply Rmult_le_pos; [apply pow2_ge_0 | lra]).
    apply Rmult_le_compat_l; [apply Rabs_pos |].
    apply Rmult_le_compat_r; [lra |].
    replace (L ^ 4 / 16) with ((L ^ 2 / 4) ^ 2) by field.
    apply pow_incr. exact Hu. }
  eexists. split; [exact Hr |]. cbn [max_moment max_deflection].
  split; [| split; [exact Hbd |]].
  - apply Rle_antisym.
    + eapply max_abs_map_bound; [| exact Hvm].
      eapply Forall_impl; [| exact Hrange]. intros xi Hxi. cbv beta.
      reshape_abs (w * (L ^ 2 / 12 - xi * (L - xi) / 2)).
      rewrite Rabs_mult. replace (Rabs w * L ^ 2 / 12) with (Rabs w * (L ^ 2 / 12)) by field.
      apply Rmult_le_compat_l; [apply Rabs_pos |].
      apply Rabs_le. pose proof (pow2_ge_0 (L - 2 * xi)). split; nra.
    + pose proof (max_abs_map_at _ _ _ _ _ H0 Hvm) as Hup. cbv beta in Hup.
      reshape_abs_in Hup (w * (L ^ 2 / 12)).
      rewrite Rabs_scale in Hup by lra. lra.
  - intros H3 Hodd. apply Rle_antisym; [exact Hbd |].
    destruct (linspace_midpoint L N xs H3 Hodd Hx) as [k Hk].
    pose proof (max_abs_map_at _ _ _ _ _ Hk Hvd) as Hup. cbv beta in Hup.
    reshape_abs_in Hup (w * (L ^ 4 / 16 * / (24 * E * I))).
    rewrite Rabs_scale in Hup by (pose proof (pow_lt L 4 HL); nra).
    rewrite HB. exact Hup.
Qed.

(** The load position is not checked against the length: a point load
    placed beyond the end ([a > L]) of a simply supported beam gives the
    support station [x = L] the nonzero deflection [P (a - L)^3 / (6 E I)]. *)
Theorem ss_point_beyond_end_deflection (L E I P a : R) (N : Z) :
  0 < L -> 0 < E -> 0 < I -> P <> 0 -> L < a -> (2 <= N)%Z ->
  exists r, euler_bernoulli L E I point P (Some a) simply_supported N = Ok r /\
    nth_error (x r) (Z.to_nat N - 1) = Some L /\
    nth_error (deflection r) (Z.to_nat N - 1) = Some (P * (a - L) ^ 3 / (6 * E * I)) /\
    P * (a - L) ^ 3 / (6 * E * I) <> 0.
Proof.
  intros HL HE HI HP Ha HN.
  assert (Hp : (point = point \/ point = moment_load) -> Some a <> None)
    by discriminate.
  rewrite (validation_passes _ _ _ _ _ _ simply_supported N
             (valid_not_violated _ _ _ _ _ _ HL HE HI HP Hp)).
  destruct (body_ok L E I point P (Some a) simply_supported N Hp ltac:(lia))
    as (xs & d & m & s & vd & vm & Hx & _ & Hd & _ & _ & _ & _ & _ & Hr).
  pose proof (linspace_last L N xs HN Hx) as HLst.
  cbv [dispatch simply_supported_point_load] in Hd. injection Hd as <- _ _.
  eexists. split; [exact Hr |]. cbn [x deflection].
  split; [exact HLst |]. split.
  - rewrite nth_error_map, HLst. cbn [option_map]. f_equal. decide_R. field_pos.
  - unfold Rdiv. apply Rmult_integral_contrapositive_currified.
    + apply Rmult_integral_contrapositive_currified; [exact HP |].
      apply pow_nonzero. lra.
    + apply Rinv_neq_0_compat. nra.
Qed.

(** A load symmetric about the midspan (a distributed load, or a point load
    at [L / 2]) on a simply supported or fixed-fixed beam gives mirror
    symmetric deflection and moment lists: each equals its own reverse. *)
Theorem symmetric_load_mirror (L E I mag : R) (lt : load_kind) (pos : option R)
    (bc : boundary) (N : Z) :
  0 < L -> 0 < E -> 0 < I -> mag <> 0 ->
  (bc = simply_supported \/ bc = fixed_fixed) ->
  (lt = distributed \/ (lt = point /\ pos = Some (L / 2))) -> (1 <= N)%Z ->
  exists r, euler_bernoulli L E I lt mag pos bc N = Ok r /\
    deflection r = rev (deflection r) /\ moment r = rev (moment r).
Proof.
  intros HL HE HI Hm Hbc Hlt HN.
  assert (Hp : (lt = point \/ lt = moment_load) -> pos <> None).
  { intros [H | H]; destruct Hlt as [-> | [-> ->]]; discriminate. }
  rewrite (validation_passes _ _ _ _ _ _ bc N
             (valid_not_violated _ _ _ _ _ _ HL HE HI Hm Hp)).
  destruct (body_ok L E I lt mag pos bc N Hp HN)
    as (xs & d & m & s & vd & vm & Hx & _ & Hd & _ & _ & _ & _ & _ & Hr).
  eexists. split; [exact Hr |]. cbn [deflection moment].
  destruct Hbc as [-> | ->]; destruct Hlt as [-> | [-> ->]];
    cbv [dispatch simply_supported_distributed_load simply_supported_point_load
         fixed_fixed_distributed_load fixed_fixed_point_load] in Hd;
    injection Hd as <- <- _;
    split; apply (map_mirror L N xs _ HL Hx); intros xi Hxi; decide_R;
    try (assert (xi = L / 2) by lra; subst xi); field_pos.
Qed.

(** Cantilever with a point load at [a] inside the span ([0 <= a <= L]),
    with at least two stations: the deflection magnitude grows along the
    beam, so [max_deflection] is the tip value [|P| a^2 (3 L - a) / (6 E I)]. *)
Theorem cantilever_point_max_deflection (L E I P a : R) (N : Z) :
  0 < L -> 0 < E -> 0 < I -> P <> 0 -> 0 <= a <= L -> (2 <= N)%Z ->
  exists r, euler_bernoulli L E I point P (Some a) cantilever N = Ok r /\
    max_deflection r = Rabs P * a ^ 2 * (3 * L - a) / (6 * E * I).
Proof.
  intros HL HE HI HP Ha HN.
  assert (Hp : (point = point \/ point = moment_load) -> Some a <> None)
    by discriminate.
  rewrite (validation_passes _ _ _ _ _ _ cantilever N
             (valid_not_violated _ _ _ _ _ _ HL HE HI HP Hp)).
  destruct (body_ok L E I point P (Some a) cantilever N Hp ltac:(lia))
    as (xs & d & m & s & vd & vm & Hx & _ & Hd & _ & _ & _ & Hvd & _ & Hr).
  pose proof (linspace_range L N xs HL Hx) as Hrange.
  pose proof (linspace_last L N xs HN Hx) as HLst.
  cbv [dispatch cantilever_point_load] in Hd. injection Hd as <- _ _.
  assert (HD : 0 < / (6 * E * I)) by (apply Rinv_0_lt_compat; nra).
  assert (HB : Rabs P * a ^ 2 * (3 * L - a) / (6 * E * I) =
               Rabs P * (a ^ 2 * (3 * L - a) * / (6 * E * I))) by (field; nra).
  eexists. split; [exact Hr |]. cbn [max_deflection]. rewrite HB.
  apply Rle_antisym.
  - eapply max_abs_map_bound; [| exact Hvd].
    eapply Forall_impl; [| exact Hrange]. intros xi Hxi. cbv beta. decide_R.
    + reshape_abs (P * (xi ^ 2 * (3 * a - xi) * / (6 * E * I))).
      assert (H1 : 0 <= xi ^ 2 * (3 * a - xi)).
      { apply Rmult_le_pos; [apply pow2_ge_0 | lra]. }
      assert (H2 : xi ^ 2 * (3 * a - xi) <= a ^ 2 * (3 * L - a)).
      { assert (Hid : a ^ 2 * (3 * L - a) - xi ^ 2 * (3 * a - xi) =
                      3 * a ^ 2 * (L - a) + (a - xi) * (2 * a ^ 2 + 2 * a * xi - xi ^ 2))
          by ring.
        assert (0 <= 3 * a ^ 2 * (L - a)).
        { pose proof (pow2_ge_0 a). apply Rmult_le_pos; lra. }
        assert (0 <= (a - xi) * (2 * a ^ 2 + 2 * a * xi - xi ^ 2)).
        { apply Rmult_le_pos; [lra | nra]. }
        lra. }
      rewrite Rabs_scale by (apply Rmult_le_pos; lra).
      apply Rmult_le_compat_l; [apply Rabs_pos |].
      apply Rmult_le_compat_r; lra.
    + reshape_abs (P * (a ^ 2 * (3 * xi - a) * / (6 * E * I))).
      assert (H1 : 0 <= a ^ 2 * (3 * xi - a)).
      { apply Rmult_le_pos; [apply pow2_ge_0 | lra]. }
      assert (H2 : a ^ 2 * (3 * xi - a) <= a ^ 2 * (3 * L - a)).
      { apply Rmult_le_compat_l; [apply pow2_ge_0 | lra]. }
      rewrite Rabs_scale by (apply Rmult_le_pos; lra).
      apply Rmult_le_compat_l; [apply Rabs_pos |].
      apply Rmult_le_compat_r; lra.
  - pose proof (max_abs_map_at _ _ _ _ _ HLst Hvd) as Hup. cbv beta in Hup.
    revert Hup. decide_R; intros Hup.
    + assert (a = L) by lra. subst a.
      reshape_abs_in Hup (P * (L ^ 2 * (3 * L - L) * / (6 * E * I))).
      rewrite Rabs_scale in Hup
        by (apply Rmult_le_pos; [apply Rmult_le_pos; [apply pow2_ge_0 | lra] | lra]).
      exact Hup.
    + reshape_abs_in Hup (P * (a ^ 2 * (3 * L - a) * / (6 * E * I))).
      rewrite Rabs_scale in Hup
        by (apply Rmult_le_pos; [apply Rmult_le_pos; [apply pow2_ge_0 | lra] | lra]).
      exact Hup.
Qed.

End BeamExtra.

Module ColumnExtra.
Import Column ColumnClaims BeamFacts.

(** The critical load scales as [E / L^2]: multiplying the length by [c]
    and the modulus by [d] multiplies the critical and design loads by
    [d / c^2], and the effective length and slenderness ratio by [c];
    the end condition and safety factor are unchanged. *)
Theorem euler_buckling_scaling (L E I : R) (ec : end_condition) (SF c d : R) :
  0 < L -> 0 < E -> 0 < I -> 0 < SF -> 0 < c -> 0 < d ->
  exists r r', euler_buckling L E I ec SF = Ok r /\
    euler_buckling (c * L) (d * E) I ec SF = Ok r' /\
    critical_load r' = d / c ^ 2 * critical_load r /\
    design_load r' = d / c ^ 2 * design_load r /\
    effective_length r' = c * effective_length r /\
    slenderness_ratio r' = c * slenderness_ratio r.
Proof.
  intros HL HE HI HS Hc Hd.
  pose proof (K_factors_pos ec) as HK.
  assert (Hr : 0 < sqrt (I / sqrt I)).
  { apply sqrt_lt_R0. apply Rdiv_pos_pos; [exact HI | apply sqrt_lt_R0; exact HI]. }
  rewrite (euler_buckling_ok L E I ec SF), (euler_buckling_ok (c * L) (d * E) I ec SF)
    by (try apply Rmult_lt_0_compat; assumption).
  do 2 eexists. split; [reflexivity |]. split; [reflexivity |].
  cbn [critical_load design_load critical_stress effective_length K_factor slenderness_ratio radius_of_gyration recommendation].
  repeat split; field; repeat split; lra.
Qed.

(** Relative to pinned ends, an end condition with factor [K] divides the
    critical load by [K^2]: fixed ends carry four times the pinned load,
    a free end a quarter of it, fixed-pinned [1 / 0.49] times it. *)
Theorem end_condition_ratio (L E I : R) (ec : end_condition) (SF : R) :
  0 < L -> 0 < E -> 0 < I -> 0 < SF ->
  exists r rp, euler_buckling L E I ec SF = Ok r /\
    euler_buckling L E I pinned SF = Ok rp /\
    K_factor r ^ 2 * critical_load r = critical_load rp /\
    (ec = fixed -> critical_load r = 4 * critical_load rp) /\
    (ec = fixed_free -> critical_load r = critical_load rp / 4) /\
    (ec = fixed_pinned -> critical_load r = critical_load rp / 0.49).
Proof.
  intros HL HE HI HS.
  pose proof (K_factors_pos ec) as HK.
  rewrite (euler_buckling_ok L E I ec SF), (euler_buckling_ok L E I pinned SF)
    by assumption.
  cbn [K_factors].
  do 2 eexists. split; [reflexivity |]. split; [reflexivity |].
  cbn [critical_load design_load critical_stress effective_length K_factor slenderness_ratio radius_of_gyration recommendation].
  unfold Q2R; cbn [QArith_base.Qnum QArith_base.Qden].
  split; [field; lra |].
  repeat split; intros ->; cbn [K_factors];
    unfold Q2R; cbn [QArith_base.Qnum QArith_base.Qden]; field; lra.
Qed.

(** With the area estimated as [sqrt I], the radius of gyration is the
    positive fourth root of [I]; it, the slenderness ratio and the
    recommendation depend on neither the modulus nor the safety factor. *)
Theorem radius_of_gyration_fourth_root (L E I : R) (ec : end_condition) (SF E' SF' : R) :
  0 < L -> 0 < E -> 0 < I -> 0 < SF -> 0 < E' -> 0 < SF' ->
  exists r r', euler_buckling L E I ec SF = Ok r /\
    euler_buckling L E' I ec SF' = Ok r' /\
    0 < radius_of_gyration r /\ radius_of_gyration r ^ 4 = I /\
    radius_of_gyration r' = radius_of_gyration r /\
    slenderness_ratio r' = slenderness_ratio r /\
    recommendation r' = recommendation r.
Proof.
  intros HL HE HI HS HE' HS'.
  assert (Hs : 0 < sqrt I) by (apply sqrt_lt_R0; exact HI).
  assert (Hq : 0 < I / sqrt I) by (apply Rdiv_pos_pos; assumption).
  rewrite (euler_buckling_ok L E I ec SF), (euler_buckling_ok L E' I ec SF')
    by assumption.
  do 2 eexists. split; [reflexivity |]. split; [reflexivity |].
  cbn [critical_load design_load critical_stress effective_length K_factor slenderness_ratio radius_of_gyration recommendation].
  split; [apply sqrt_lt_R0; exact Hq |].
  split; [| repeat split].
  replace (sqrt (I / sqrt I) ^ 4) with ((sqrt (I / sqrt I) ^ 2) ^ 2) by ring.
  rewrite pow2_sqrt by lra.
  replace ((I / sqrt I) ^ 2) with (I ^ 2 / (sqrt I ^ 2)) by (field; lra).
  rewrite pow2_sqrt by lra. field. lra.
Qed.

End ColumnExtra.

Module ExtraWitnesses.
Import Beam BeamSpec BeamFacts BeamExtraFacts BeamExtra.

Lemma left_end_deflection_zero_witness :
  (~ precondition_violated 2 1 1 moment_load 3 (Some 1) /\
  (forall a, Some 1 = Some a -> 0 <= a) /\
  (1 <= 5)%Z) /\
  exists r, euler_bernoulli 2 1 1 moment_load 3 (Some 1) cantilever 5 = Ok r /\
    nth_error (x r) 0 = Some 0 /\ nth_error (deflection r) 0 = Some 0.
Proof.
  split; [repeat (match goal with |- _ /\ _ => split end); witness_hyp |].
  apply (left_end_deflection_zero 2 1 1 moment_load 3 (Some 1) cantilever 5); witness_hyp.
Defined.

Lemma right_end_deflection_zero_witness :
  (~ precondition_violated 2 1 1 point 3 (Some 1) /\
  (simply_supported = simply_supported \/ simply_supported = fixed_fixed) /\
  (forall a, Some 1 = Some a -> 0 <= a <= 2) /\
  (2 <= 5)%Z) /\
  exists r, euler_bernoulli 2 1 1 point 3 (Some 1) simply_supported 5 = Ok r /\
    nth_error (x r) (Z.to_nat 5 - 1) = Some 2 /\
    nth_error (deflection r) (Z.to_nat 5 - 1) = Some 0.
Proof.
  split; [repeat (match goal with |- _ /\ _ => split end); witness_hyp |].
  apply (right_end_deflection_zero 2 1 1 point 3 (Some 1) simply_supported 5); witness_hyp.
Defined.

Lemma load_magnitude_scaling_witness :
  (~ precondition_violated 2 1 1 point 3 (Some 1) /\
  2 <> 0 /\
  (1 <= 5)%Z) /\
  exists r r',
    euler_bernoulli 2 1 1 point 3 (Some 1) fixed_fixed 5 = Ok r /\
    euler_bernoulli 2 1 1 point (2 * 3) (Some 1) fixed_fixed 5 = Ok r' /\
    x r' = x r /\
    deflection r' = map (fun y => 2 * y) (deflection r) /\
    moment r' = map (fun y => 2 * y) (moment r) /\
    shear r' = map (fun y => 2 * y) (shear r) /\
    max_deflection r' = Rabs 2 * max_deflection r /\
    max_moment r' = Rabs 2 * max_moment r.
Proof.
  split; [repeat (match goal with |- _ /\ _ => split end); witness_hyp |].
  apply (load_magnitude_scaling 2 1 1 point 3 2 (Some 1) fixed_fixed 5); witness_hyp.
Defined.

Lemma point_load_branches_meet_witness :
  (0 < 2 /\
  0 < 1 /\
  0 < 1 /\
  3 <> 0 /\
  (1 <= 5)%Z) /\
  (exists r, euler_bernoulli 2 1 1 point 3 (Some 1) simply_supported 5 = Ok r /\
     at_stations (x r) (deflection r) (fun xi y =>
       (xi <= 1 -> y = 3 * (2 - 1) * xi * (2 ^ 2 - (2 - 1) ^ 2 - xi ^ 2) / (6 * 1 * 1 * 2)) /\
       (1 <= xi -> y = 3 * 1 * (2 - xi) * (2 * 2 * xi - xi ^ 2 - 1 ^ 2) / (6 * 1 * 1 * 2))) /\
     at_stations (x r) (moment r) (fun xi y =>
       (xi <= 1 -> y = 3 * (2 - 1) / 2 * xi) /\
       (1 <= xi -> y = 3 * (2 - 1) / 2 * xi - 3 * (xi - 1)))) /\
  (exists r, euler_bernoulli 2 1 1 point 3 (Some 1) cantilever 5 = Ok r /\
     at_stations (x r) (deflection r) (fun xi y =>
       (xi <= 1 -> y = 3 * xi ^ 2 * (3 * 1 - xi) / (6 * 1 * 1)) /\
       (1 <= xi -> y = 3 * 1 ^ 2 * (3 * xi - 1) / (6 * 1 * 1))) /\
     at_stations (x r) (moment r) (fun xi y =>
       (xi <= 1 -> y = - 3 * (1 - xi)) /\ (1 <= xi -> y = 0))) /\
  (exists r, euler_bernoulli 2 1 1 point 3 (Some 1) fixed_fixed 5 = Ok r /\
     at_stations (x r) (deflection r) (fun xi y =>
       let R1 := 3 * (2 - 1) ^ 2 * (3 * 1 + (2 - 1)) / 2 ^ 3 in
       let M1 := 3 * 1 * (2 - 1) ^ 2 / 2 ^ 2 in
       (xi <= 1 -> y = (R1 * xi ^ 3 / 6 - M1 * xi ^ 2 / 2) / (1 * 1)) /\
       (1 <= xi -> y = (R1 * xi ^ 3 / 6 - M1 * xi ^ 2 / 2 - 3 * (xi - 1) ^ 3 / 6) / (1 * 1))) /\
     at_stations (x r) (moment r) (fun xi y =>
       let R1 := 3 * (2 - 1) ^ 2 * (3 * 1 + (2 - 1)) / 2 ^ 3 in
       let M1 := 3 * 1 * (2 - 1) ^ 2 / 2 ^ 2 in
       (xi <= 1 -> y = R1 * xi - M1) /\ (1 <= xi -> y = R1 * xi - M1 - 3 * (xi - 1)))).
Proof.
  split; [repeat (match goal with |- _ /\ _ => split end); witness_hyp |].
  apply (point_load_branches_meet 2 1 1 3 1 5); witness_hyp.
Defined.

Lemma ss_point_max_moment_witness :
  (0 < 2 /\
  0 < 1 /\
  0 < 1 /\
  3 <> 0 /\
  0 <= 1 <= 2 /\
  (1 <= 5)%Z) /\
  exists r, euler_bernoulli 2 1 1 point 3 (Some 1) simply_supported 5 = Ok r /\
    max_moment r <= Rabs 3 * 1 * (2 - 1) / 2 /\
    (In 1 (x r) -> max_moment r = Rabs 3 * 1 * (2 - 1) / 2).
Proof.
  split; [repeat (match goal with |- _ /\ _ => split end); witness_hyp |].
  apply (ss_point_max_moment 2 1 1 3 1 5); witness_hyp.
Defined.

Lemma cantilever_point_max_moment_witness :
  (0 < 2 /\
  0 < 1 /\
  0 < 1 /\
  3 <> 0 /\
  0 <= 1 /\
  (1 <= 5)%Z) /\
  exists r, euler_bernoulli 2 1 1 point 3 (Some 1) cantilever 5 = Ok r /\
    max_moment r = Rabs 3 * 1.
Proof.
  split; [repeat (match goal with |- _ /\ _ => split end); witness_hyp |].
  apply (cantilever_point_max_moment 2 1 1 3 1 5); witness_hyp.
Defined.

Lemma cantilever_point_max_deflection_witness :
  (0 < 2 /\
  0 < 1 /\
  0 < 1 /\
  3 <> 0 /\
  0 <= 1 <= 2 /\
  (2 <= 5)%Z) /\
  exists r, euler_bernoulli 2 1 1 point 3 (Some 1) cantilever 5 = Ok r /\
    max_deflection r = Rabs 3 * 1 ^ 2 * (3 * 2 - 1) / (6 * 1 * 1).
Proof.
  split; [repeat (match goal with |- _ /\ _ => split end); witness_hyp |].
  apply (cantilever_point_max_deflection 2 1 1 3 1 5); witness_hyp.
Defined.

Lemma cantilever_distributed_maxima_witness :
  (0 < 2 /\
  0 < 1 /\
  0 < 1 /\
  3 <> 0 /\
  (1 <= 5)%Z) /\
  exists r, euler_bernoulli 2 1 1 distributed 3 None cantilever 5 = Ok r /\
    max_moment r = Rabs 3 * 2 ^ 2 / 2 /\
    ((2 <= 5)%Z -> max_deflection r = Rabs 3 * 2 ^ 4 / (8 * 1 * 1)).
Proof.
  split; [repeat (match goal with |- _ /\ _ => split end); witness_hyp |].
  apply (cantilever_distributed_maxima 2 1 1 3 None 5); witness_hyp.
Defined.

Lemma fixed_fixed_distributed_maxima_witness :
  (0 < 2 /\
  0 < 1 /\
  0 < 1 /\
  3 <> 0 /\
  (1 <= 5)%Z) /\
  exists r, euler_bernoulli 2 1 1 distributed 3 None fixed_fixed 5 = Ok r /\
    max_moment r = Rabs 3 * 2 ^ 2 / 12 /\
    max_deflection r <= Rabs 3 * 2 ^ 4 / (384 * 1 * 1) /\
    ((3 <= 5)%Z -> Z.odd 5 = true ->
       max_deflection r = Rabs 3 * 2 ^ 4 / (384 * 1 * 1)).
Proof.
  split; [repeat (match goal with |- _ /\ _ => split end); witness_hyp |].
  apply (fixed_fixed_distributed_maxima 2 1 1 3 None 5); witness_hyp.
Defined.

Lemma ss_point_beyond_end_deflection_witness :
  (0 < 2 /\
  0 < 1 /\
  0 < 1 /\
  3 <> 0 /\
  2 < 3 /\
  (2 <= 5)%Z) /\
  exists r, euler_bernoulli 2 1 1 point 3 (Some 3) simply_supported 5 = Ok r /\
    nth_error (x r) (Z.to_nat 5 - 1) = Some 2 /\
    nth_error (deflection r) (Z.to_nat 5 - 1) = Some (3 * (3 - 2) ^ 3 / (6 * 1 * 1)) /\
    3 * (3 - 2) ^ 3 / (6 * 1 * 1) <> 0.
Proof.
  split; [repeat (match goal with |- _ /\ _ => split end); witness_hyp |].
  apply (ss_point_beyond_end_deflection 2 1 1 3 3 5); witness_hyp.
Defined.

Lemma symmetric_load_mirror_witness :
  (0 < 2 /\
  0 < 1 /\
  0 < 1 /\
  3 <> 0 /\
  (simply_supported = simply_supported \/ simply_supported = fixed_fixed) /\
  (point = distributed \/ (point = point /\ Some (2 / 2) = Some (2 / 2))) /\
  (1 <= 5)%Z) /\
  exists r, euler_bernoulli 2 1 1 point 3 (Some (2 / 2)) simply_supported 5 = Ok r /\
    deflection r = rev (deflection r) /\ moment r = rev (moment r).
Proof.
  split; [repeat (match goal with |- _ /\ _ => split end); witness_hyp |].
  apply (symmetric_load_mirror 2 1 1 3 point (Some (2 / 2)) simply_supported 5); witness_hyp.
Defined.

End ExtraWitnesses.

Module ColumnExtraWitnesses.
Import Column BeamExtraFacts ColumnExtra.

Lemma euler_buckling_scaling_witness :
  (0 < 2 /\
  0 < 1 /\
  0 < 1 /\
  0 < 2 /\
  0 < 2 /\
  0 < 3) /\
  exists r r', euler_buckling 2 1 1 fixed 2 = Ok r /\
    euler_buckling (2 * 2) (3 * 1) 1 fixed 2 = Ok r' /\
    critical_load r' = 3 / 2 ^ 2 * critical_load r /\
    design_load r' = 3 / 2 ^ 2 * design_load r /\
    effective_length r' = 2 * effective_length r /\
    slenderness_ratio r' = 2 * slenderness_ratio r.
Proof.
  split; [repeat (match goal with |- _ /\ _ => split end); witness_hyp |].
  apply (euler_buckling_scaling 2 1 1 fixed 2 2 3); witness_hyp.
Defined.

Lemma end_condition_ratio_witness :
  (0 < 2 /\
  0 < 1 /\
  0 < 1 /\
  0 < 2) /\
  exists r rp, euler_buckling 2 1 1 fixed 2 = Ok r /\
    euler_buckling 2 1 1 pinned 2 = Ok rp /\
    K_factor r ^ 2 * critical_load r = critical_load rp /\
    (fixed = fixed -> critical_load r = 4 * critical_load rp) /\
    (fixed = fixed_free -> critical_load r = critical_load rp / 4) /\
    (fixed = fixed_pinned -> critical_load r = critical_load rp / 0.49).
Proof.
  split; [repeat (match goal with |- _ /\ _ => split end); witness_hyp |].
  apply (end_condition_ratio 2 1 1 fixed 2); witness_hyp.
Defined.

Lemma radius_of_gyration_fourth_root_witness :
  (0 < 2 /\
  0 < 1 /\
  0 < 4 /\
  0 < 2 /\
  0 < 3 /\
  0 < 5) /\
  exists r r', euler_buckling 2 1 4 pinned 2 = Ok r /\
    euler_buckling 2 3 4 pinned 5 = Ok r' /\
    0 < radius_of_gyration r /\ radius_of_gyration r ^ 4 = 4 /\
    radius_of_gyration r' = radius_of_gyration r /\
    slenderness_ratio r' = slenderness_ratio r /\
    recommendation r' = recommendation r.
Proof.
  split; [repeat (match goal with |- _ /\ _ => split end); witness_hyp |].
  apply (radius_of_gyration_fourth_root 2 1 4 pinned 2 3 5); witness_hyp.
Defined.

End ColumnExtraWitnesses.
